(** * Information Superiority Engine: a shallow embedding and its properties

    The development follows [karkas.py] (the modular pipeline: ingestion,
    normalisation, de-duplication, classification, enrichment, analytics,
    the orchestrator and the script that runs it), [api/app/main.py] (the
    HTTP endpoints: ingest, the list of events and the summary) and
    [application.py] (the keyword classifier the endpoint consults).

    Conventions of the embedding:
    - a Python [str] is a [string]; its characters are read as the code
      points 0..255 (Latin-1), on which [str.lower] and [str.strip] are
      modelled exactly as CPython behaves on that range;
    - the event dictionary built by [DataIngestion.ingest] is a record whose
      optional keys ([category], [entities]) are [option] fields; the
      metadata bag holds JSON-shaped values, the ones [json.dumps] writes
      into the [meta] column; the module [AnyMeta] follows the same pipeline
      on metadata of any kind, on which [json.dumps] may raise, and agrees
      with it on the metadata that [json.dumps] writes;
    - the SQLite table [events] is the list of its rows in insertion order,
      threaded explicitly through every operation that touches it;
    - [hashlib.sha256(..).hexdigest()] is a parameter of the development:
      every statement holds for any digest function;
    - [difflib.SequenceMatcher(None, a, b).ratio()] is embedded from
      CPython's [difflib.py]; the float [2.0 * matches / length] is kept as
      the exact rational it rounds, and [> 0.9] is the comparison with 9/10
      (the two agree whenever the lengths are below 2^49, since IEEE division
      is correctly rounded and the literal 0.9 is the rounding of 9/10;
      [near_duplicate_float] checks it on binary64 floats for every pair
      of texts of up to 300 characters together);
    - the PostgreSQL table [events] of the endpoint is the list of its rows
      in insertion order together with the value of its [SERIAL] sequence;
      requests are served one after the other; psycopg2 refuses a string
      with a NUL character and a dict as the category, PostgreSQL refuses a
      NUL inside a [JSONB] value, and what the two make of a category that
      is a number, a boolean or a list (the text stored, or a refusal) is
      a parameter of the development;
    - the wall clock ([datetime.utcnow]) and the classification oracle's
      answer are explicit inputs. *)

From Stdlib Require Import String Ascii List ZArith QArith Lia Bool Floats.
From stdpp Require Import base gmap strings list sorting.

Local Open Scope string_scope.
Local Open Scope nat_scope.
Local Open Scope list_scope.
Set Warnings "-register-all,-inexact-float".


(** ** Python string primitives *)

(** [str.lower] on one code point below 256: A-Z and the upper-case Latin-1
    letters (0xC0..0xDE without the multiplication sign 0xD7) move up by 32. *)
Definition lower_char (c : ascii) : ascii :=
  let n := nat_of_ascii c in
  if (((65 <=? n) && (n <=? 90)) || ((192 <=? n) && (n <=? 222) && negb (n =? 215)))%nat
  then ascii_of_nat (n + 32)
  else c.

Fixpoint str_lower (s : string) : string :=
  match s with
  | EmptyString => EmptyString
  | String c s' => String (lower_char c) (str_lower s')
  end.

(** [str.isspace] on one code point below 256: TAB..CR, FS..US, space,
    NEL (0x85) and the no-break space (0xA0). *)
Definition is_space (c : ascii) : bool :=
  let n := nat_of_ascii c in
  (((9 <=? n) && (n <=? 13)) || ((28 <=? n) && (n <=? 32)) || (n =? 133) || (n =? 160))%nat.

Fixpoint lstrip (s : string) : string :=
  match s with
  | EmptyString => EmptyString
  | String c s' => if is_space c then lstrip s' else s
  end.

Fixpoint rstrip (s : string) : string :=
  match s with
  | EmptyString => EmptyString
  | String c s' =>
      match rstrip s' with
      | EmptyString => if is_space c then EmptyString else String c EmptyString
      | r => String c r
      end
  end.

(** [str.strip()]: whitespace removed at both ends. *)
Definition strip (s : string) : string := rstrip (lstrip s).

(** [kw in text] for strings: [kw] occurs in [text] at some position. *)
Fixpoint str_contains (kw text : string) : bool :=
  String.prefix kw text ||
  match text with
  | EmptyString => false
  | String _ text' => str_contains kw text'
  end.

(** ** JSON-shaped values (the [meta] bag, the oracle's answers) *)

Inductive json : Type :=
| JNull
| JBool (b : bool)
| JNum (q : Q)
| JStr (s : string)
| JArr (items : list json)
| JObj (fields : list (string * json)).

(** ** The event record of [karkas.py] *)

Record entity_info := mk_entities {
  location : string;
  timestamp : string;
  actors : list string
}.

Record event := mk_event {
  source : string;
  text : string;
  received_at : string;
  meta : list (string * json);
  category : option string;
  entities : option entity_info
}.

(** [DataIngestion.ingest(source, text, **kwargs)]; [now] is the value of
    [datetime.utcnow().isoformat()] at the call. *)
Definition ingest (now : string) (src txt : string) (kwargs : list (string * json)) : event :=
  {| source := src; text := strip txt; received_at := now; meta := kwargs;
     category := None; entities := None |}.

(** The text transformation of [Normalization.normalize]:
    [record["text"].lower().strip()]. *)
Definition normalize_text (t : string) : string := strip (str_lower t).

(** [Normalization.normalize(record)]: the record with its text replaced. *)
Definition normalize (r : event) : event :=
  {| source := source r; text := normalize_text (text r); received_at := received_at r;
     meta := meta r; category := category r; entities := entities r |}.

(** ** Classification *)

(** [ClassificationEngine.CATEGORIES], in the dictionary's insertion order,
    which is the order [.items()] iterates in. *)
Definition CATEGORIES : list (string * string) :=
  [ ("protest", "CIVIL_ACTIVITY");
    ("threat", "SECURITY_ALERT");
    ("outage", "INFRASTRUCTURE");
    ("attack", "CRISIS_EVENT") ].

(** The [for kw, cat in ...: if kw in text: ...; break] loop, started with
    the category already set to [dflt]. *)
Fixpoint first_match (table : list (string * string)) (txt : string) (dflt : string) : string :=
  match table with
  | [] => dflt
  | (kw, cat) :: table' =>
      if str_contains kw txt then cat else first_match table' txt dflt
  end.

(** [ClassificationEngine.classify(record)]. *)
Definition classify (r : event) : event :=
  {| source := source r; text := text r; received_at := received_at r;
     meta := meta r;
     category := Some (first_match CATEGORIES (text r) "UNCLASSIFIED");
     entities := entities r |}.

(** [EnrichmentEngine.enrich(record)]. *)
Definition enrich (r : event) : event :=
  {| source := source r; text := text r; received_at := received_at r;
     meta := meta r; category := category r;
     entities := Some {| location := "unknown"; timestamp := received_at r; actors := [] |} |}.

(** ** Analytics *)

(** [r.get("category", "UNCLASSIFIED")]. *)
Definition category_of (r : event) : string := default "UNCLASSIFIED" (category r).

(** One turn of the loop of [AnalyticsEngine.analyze]:
    [summary[cat] = summary.get(cat, 0) + 1]. *)
Definition count_event (summary : gmap string nat) (r : event) : gmap string nat :=
  let cat := category_of r in
  <[cat := default 0 (summary !! cat) + 1]> summary.

(** [AnalyticsEngine.analyze(records)]. *)
Definition analyze (records : list event) : gmap string nat :=
  foldl count_event ∅ records.

(** ** [difflib.SequenceMatcher(None, a, b)]

    Sequences are lists over any hashable element type; indices are natural
    numbers.  The junk predicate is [None], [autojunk] has its default
    [True]. *)

(** A matching block [(i, j, k)]: [a[i:i+k] == b[j:j+k]]. *)
Definition block : Type := nat * nat * nat.

(** The order of tuples that [list.sort] uses on blocks. *)
Definition block_le (x y : block) : Prop :=
  let '(i1, j1, k1) := x in
  let '(i2, j2, k2) := y in
  i1 < i2 ∨ (i1 = i2 ∧ (j1 < j2 ∨ (j1 = j2 ∧ k1 ≤ k2))).

Global Instance block_le_dec (x y : block) : Decision (block_le x y).
Proof.
  destruct x as [[i1 j1] k1], y as [[i2 j2] k2]; unfold block_le; apply _.
Defined.

(** [sum(triple[-1] for triple in blocks)]. *)
Definition sum_sizes (blocks : list block) : nat :=
  foldr (λ x acc, x.2 + acc) 0 blocks.

(** The loop of [get_matching_blocks] that merges adjacent blocks; [cur] is
    [(i1, j1, k1)]. *)
Fixpoint collapse_adjacent (blocks : list block) (cur : block) (non_adjacent : list block)
  : list block * block :=
  match blocks with
  | [] => (non_adjacent, cur)
  | (i2, j2, k2) :: rest =>
      let '(i1, j1, k1) := cur in
      if (i1 + k1 =? i2) && (j1 + k1 =? j2)
      then collapse_adjacent rest (i1, j1, k1 + k2) non_adjacent
      else collapse_adjacent rest (i2, j2, k2)
             (if k1 =? 0 then non_adjacent else non_adjacent ++ [(i1, j1, k1)])
  end.

(** [_calculate_ratio(matches, length)]. *)
Definition _calculate_ratio (matches len : nat) : Q :=
  if len =? 0 then 1%Q else (Z.of_nat (2 * matches) # Pos.of_nat len)%Q.

(** The same function on binary64 floats, as Python computes it, and the
    test [_calculate_ratio(matches, length) > 0.9] on them. *)
Definition float_of_nat (n : nat) : float :=
  PrimFloat.of_uint63 (Uint63.of_Z (Z.of_nat n)).

Definition calculate_ratio_float (matches len : nat) : float :=
  if len =? 0 then 1%float else (2 * float_of_nat matches / float_of_nat len)%float.

Definition above_threshold_float (matches len : nat) : bool :=
  PrimFloat.ltb 0.9%float (calculate_ratio_float matches len).

Section SequenceMatcher.
Context {A : Type} `{Countable A}.

(** [indices = b2j.setdefault(elt, []); indices.append(i)]. *)
Definition setdefault_append (b2j : gmap A (list nat)) (i : nat) (elt : A)
  : gmap A (list nat) :=
  <[elt := default [] (b2j !! elt) ++ [i]]> b2j.

(** [for i, elt in enumerate(b): ...], from index [i] on. *)
Fixpoint index_elements (b : list A) (i : nat) (b2j : gmap A (list nat))
  : gmap A (list nat) :=
  match b with
  | [] => b2j
  | elt :: b' => index_elements b' (S i) (setdefault_append b2j i elt)
  end.

(** [__chain_b]: the index [b2j] of the positions of each element of [b],
    from which the popular elements are deleted when [len(b) >= 200]. *)
Definition chain_b (b : list A) : gmap A (list nat) :=
  let b2j := index_elements b 0 ∅ in
  let n := length b in
  if 200 <=? n then
    let ntest := n / 100 + 1 in
    filter (λ kv : A * list nat, ¬ ntest < length kv.2) b2j
  else b2j.

(** [bjunk]: empty, since no junk predicate is given. *)
Definition bjunk : gset A := ∅.

(** [isbjunk(b[j])]. *)
Definition isbjunk (y : option A) : bool :=
  match y with
  | Some y => bool_decide (y ∈ bjunk)
  | None => false
  end.

(** [a[i] == b[j]]. *)
Definition elt_eqb (x y : option A) : bool :=
  match x, y with
  | Some u, Some v => bool_decide (u = v)
  | _, _ => false
  end.

(** [j2len.get(j-1, 0)]; the key [-1] is never present. *)
Definition j2lenget (j2len : gmap nat nat) (j : nat) : nat :=
  match j with
  | 0 => 0
  | S j' => default 0 (j2len !! j')
  end.

(** The inner loop of [find_longest_match] over [b2j.get(a[i], nothing)];
    [best] is [(besti, bestj, bestsize)]. *)
Fixpoint scan_row (j2len : gmap nat nat) (i blo bhi : nat) (js : list nat)
  (newj2len : gmap nat nat) (best : block) : gmap nat nat * block :=
  match js with
  | [] => (newj2len, best)
  | j :: js' =>
      if j <? blo then scan_row j2len i blo bhi js' newj2len best
      else if bhi <=? j then (newj2len, best)
      else
        let k := j2lenget j2len j + 1 in
        scan_row j2len i blo bhi js' (<[j := k]> newj2len)
          (if best.2 <? k then (S i - k, S j - k, k) else best)
  end.

(** [b2j.get(a[i], nothing)]. *)
Definition b2j_get (a : list A) (b2j : gmap A (list nat)) (i : nat) : list nat :=
  match a !! i with
  | Some x => default [] (b2j !! x)
  | None => []
  end.

(** The outer loop [for i in range(alo, ahi)], over the list of its
    indices. *)
Fixpoint scan_rows (a : list A) (b2j : gmap A (list nat)) (blo bhi : nat)
  (rows : list nat) (j2len : gmap nat nat) (best : block) : block :=
  match rows with
  | [] => best
  | i :: rows' =>
      let '(newj2len, best') :=
        scan_row j2len i blo bhi (b2j_get a b2j i) ∅ best in
      scan_rows a b2j blo bhi rows' newj2len best'
  end.

(** [while besti > alo and bestj > blo and (not) isbjunk(b[bestj-1]) and
    a[besti-1] == b[bestj-1]]; [junk] tells which of the two loops. *)
Fixpoint extend_left (a b : list A) (junk : bool) (alo blo : nat)
  (besti bestj bestsize : nat) {struct besti} : block :=
  match besti, bestj with
  | S i', S j' =>
      if (alo <? besti) && (blo <? bestj)
         && eqb (isbjunk (b !! j')) junk
         && elt_eqb (a !! i') (b !! j')
      then extend_left a b junk alo blo i' j' (S bestsize)
      else (besti, bestj, bestsize)
  | _, _ => (besti, bestj, bestsize)
  end.

(** [while besti+bestsize < ahi and bestj+bestsize < bhi and (not)
    isbjunk(b[bestj+bestsize]) and a[besti+bestsize] == b[bestj+bestsize]];
    [fuel] is [ahi - (besti+bestsize)], the number of turns the first
    test allows. *)
Fixpoint extend_right (a b : list A) (junk : bool) (ahi bhi besti bestj : nat)
  (fuel bestsize : nat) : nat :=
  match fuel with
  | 0 => bestsize
  | S fuel' =>
      if (besti + bestsize <? ahi) && (bestj + bestsize <? bhi)
         && eqb (isbjunk (b !! (bestj + bestsize))) junk
         && elt_eqb (a !! (besti + bestsize)) (b !! (bestj + bestsize))
      then extend_right a b junk ahi bhi besti bestj fuel' (S bestsize)
      else bestsize
  end.

(** [find_longest_match(alo, ahi, blo, bhi)]. *)
Definition find_longest_match (a b : list A) (b2j : gmap A (list nat))
  (alo ahi blo bhi : nat) : block :=
  let '(i0, j0, k0) :=
    scan_rows a b2j blo bhi (seq alo (ahi - alo)) ∅ (alo, blo, 0) in
  let '(i1, j1, k1) := extend_left a b false alo blo i0 j0 k0 in
  let k2 := extend_right a b false ahi bhi i1 j1 (ahi - (i1 + k1)) k1 in
  let '(i3, j3, k3) := extend_left a b true alo blo i1 j1 k2 in
  let k4 := extend_right a b true ahi bhi i3 j3 (ahi - (i3 + k3)) k3 in
  (i3, j3, k4).

(** The [while queue:] loop of [get_matching_blocks].  The head of [queue]
    is the end of the Python list ([queue.pop()] takes it,
    [queue.append] puts one before it); [None] when [fuel] turns do not
    empty the queue. *)
Fixpoint match_queue (a b : list A) (b2j : gmap A (list nat)) (fuel : nat)
  (queue : list (nat * nat * nat * nat)) (matching_blocks : list block)
  : option (list block) :=
  match queue with
  | [] => Some matching_blocks
  | (alo, ahi, blo, bhi) :: queue' =>
      match fuel with
      | 0 => None
      | S fuel' =>
          let '(i, j, k) := find_longest_match a b b2j alo ahi blo bhi in
          if k =? 0 then match_queue a b b2j fuel' queue' matching_blocks
          else
            let q1 := if (alo <? i) && (blo <? j)
                      then (alo, i, blo, j) :: queue' else queue' in
            let q2 := if (i + k <? ahi) && (j + k <? bhi)
                      then (i + k, ahi, j + k, bhi) :: q1 else q1 in
            match_queue a b b2j fuel' q2 (matching_blocks ++ [(i, j, k)])
      end
  end.

(** What [get_matching_blocks] does with the blocks the loop found: sort,
    merge adjacent ones, append the sentinel [(la, lb, 0)]. *)
Definition finish_blocks (la lb : nat) (matching_blocks : list block) : list block :=
  let '(non_adjacent, (i1, j1, k1)) :=
    collapse_adjacent (merge_sort block_le matching_blocks) (0, 0, 0) [] in
  (if k1 =? 0 then non_adjacent else non_adjacent ++ [(i1, j1, k1)]) ++ [(la, lb, 0)].

(** [get_matching_blocks()].  The loop is given [2 * la + 1] turns, which
    always empty the queue ([match_queue_terminates] below), so the second
    branch is never taken. *)
Definition get_matching_blocks (a b : list A) : list block :=
  let la := length a in
  let lb := length b in
  match match_queue a b (chain_b b) (2 * la + 1) [(0, la, 0, lb)] [] with
  | Some matching_blocks => finish_blocks la lb matching_blocks
  | None => []
  end.

(** [ratio()]. *)
Definition ratio (a b : list A) : Q :=
  _calculate_ratio (sum_sizes (get_matching_blocks a b)) (length a + length b).

End SequenceMatcher.

(** [difflib.SequenceMatcher(None, s, t).ratio()] on two strings. *)
Definition str_ratio (s t : string) : Q :=
  ratio (list_ascii_of_string s) (list_ascii_of_string t).


(** ** Outcomes of calls that may raise *)

Inductive exn : Type :=
| IntegrityError                                   (* a UNIQUE constraint failed *)
| HTTPException (status_code : nat) (detail : string)
| AttributeError                                   (* [.get] on a value that is no dict *)
| TypeError                                        (* [json.dumps] on an object it cannot encode *)
| ValueError                                       (* a NUL in a string parameter; a circular container *)
| RecursionError                                   (* containers nested too deep for [json.dumps] *)
| ProgrammingError                                 (* psycopg2 cannot adapt a parameter *)
| DataError.                                       (* PostgreSQL cannot read a value *)

Inductive outcome (A : Type) : Type :=
| Returned (v : A)
| Raised (e : exn).
Arguments Returned {A} v.
Arguments Raised {A} e.

(** ** The [events] table of [karkas.py] *)

Record row := mk_row {
  row_id : nat;
  row_source : string;
  row_text : string;
  row_hash : string;
  row_received_at : string;
  row_meta : list (string * json)   (* the column stores [json.dumps] of it *)
}.

(** [SELECT text FROM events WHERE hash = ?] followed by [fetchone()]. *)
Definition select_text_by_hash (db : list row) (h : string) : option string :=
  row_text <$> head (filter (λ r, row_hash r = h) db).

(** [SELECT text FROM events] followed by [fetchall()]. *)
Definition select_all_texts (db : list row) : list string := map row_text db.

(** The rowid SQLite gives to a new row of an [INTEGER PRIMARY KEY] table:
    one more than the largest in use. *)
Definition next_rowid (db : list row) : nat := S (foldr Nat.max 0 (map row_id db)).

(** [INSERT INTO events (source, text, hash, received_at, meta) VALUES ...]
    and [commit()]; [None] is [sqlite3.IntegrityError], raised when the
    [hash TEXT UNIQUE] constraint of [_init_db] would be broken. *)
Definition insert_event (db : list row) (src txt h recv : string)
  (m : list (string * json)) : option (list row) :=
  if bool_decide (h ∈ map row_hash db) then None
  else Some (db ++ [mk_row (next_rowid db) src txt h recv m]).

(** The result dictionaries of [InformationSuperiorityPipeline]. *)
Record result := mk_result {
  status : string;
  reason : option string;
  result_event : option event
}.

(** The category carried by a result, if it carries an event. *)
Definition result_category (r : result) : option string :=
  result_event r ≫= category.

(** [DeduplicationEngine._init_db]: [CREATE TABLE IF NOT EXISTS] leaves a
    table that exists as it is. *)
Definition _init_db (db : list row) : list row := db.

(** The operations that reach the table: the two calls of the pipeline, and
    the two methods of its de-duplication engine called directly. *)
Inductive pipeline_op : Type :=
| ProcessEvent (now src txt : string) (kwargs : list (string * json))
| AnalyzeAll
| InitDb
| ValidateAndStore (record : event).

Section Pipeline.
(** [hashlib.sha256(text.encode()).hexdigest()]. *)
Variable sha256_hexdigest : string → string.

(** [DeduplicationEngine._hash]. *)
Definition _hash (txt : string) : string := sha256_hexdigest txt.

(** [difflib.SequenceMatcher(None, text, existing).ratio() > 0.9]. *)
Definition near_duplicate (txt existing : string) : bool :=
  negb (Qle_bool (str_ratio txt existing) (9 # 10)).

(** [DeduplicationEngine.is_duplicate]. *)
Definition is_duplicate (db : list row) (txt : string) : bool :=
  let text_hash := _hash txt in
  match select_text_by_hash db text_hash with
  | Some _ => true
  | None => existsb (near_duplicate txt) (select_all_texts db)
  end.

(** [DeduplicationEngine.validate_and_store]. *)
Definition validate_and_store (db : list row) (record : event)
  : outcome bool * list row :=
  let txt := text record in
  if (String.length txt <? 5) || is_duplicate db txt then (Returned false, db)
  else
    match insert_event db (source record) txt (_hash txt)
            (received_at record) (meta record) with
    | Some db' => (Returned true, db')
    | None => (Raised IntegrityError, db)
    end.

(** [InformationSuperiorityPipeline.process_event(source, text, **meta)]. *)
Definition process_event (db : list row) (now src txt : string)
  (kwargs : list (string * json)) : outcome result * list row :=
  let ev := ingest now src txt kwargs in
  let ev := normalize ev in
  match validate_and_store db ev with
  | (Raised e, db') => (Raised e, db')
  | (Returned false, db') =>
      (Returned {| status := "rejected"; reason := Some "duplicate_or_invalid";
                   result_event := None |}, db')
  | (Returned true, db') =>
      let ev := classify ev in
      let ev := enrich ev in
      (Returned {| status := "processed"; reason := None;
                   result_event := Some ev |}, db')
  end.

(** [InformationSuperiorityPipeline.analyze_all()]. *)
Definition analyze_all (db : list row) : result * list row :=
  ({| status := "analytics_ready"; reason := None; result_event := None |}, db).

(** The table after one operation of the pipeline, and after a sequence. *)
Definition run_op (db : list row) (op : pipeline_op) : list row :=
  match op with
  | ProcessEvent now src txt kwargs => (process_event db now src txt kwargs).2
  | AnalyzeAll => (analyze_all db).2
  | InitDb => _init_db db
  | ValidateAndStore record => (validate_and_store db record).2
  end.

Definition run_ops (db : list row) (ops : list pipeline_op) : list row :=
  foldl run_op db ops.

End Pipeline.

(** No two rows of the table carry the same fingerprint. *)
Definition unique_fingerprints (db : list row) : Prop := NoDup (map row_hash db).

(** ** The pipeline on metadata of any kind *)

(** [process_event(source, text, **meta)] takes any objects as metadata,
    and [validate_and_store] hands them to [json.dumps], which raises on
    an object it cannot write.  The definitions above are the pipeline on
    metadata that [json.dumps] writes; the ones of this module follow the
    same code on any metadata. *)
Module AnyMeta.

(** Why [json.dumps] raises on an object. *)
Inductive dumps_error : Type :=
| NoEncoding          (* [TypeError]: a [datetime], a [set], [bytes] *)
| CircularReference   (* [ValueError]: a container that holds itself *)
| TooDeep.            (* [RecursionError] *)

Definition dumps_exn (e : dumps_error) : exn :=
  match e with
  | NoEncoding => TypeError
  | CircularReference => ValueError
  | TooDeep => RecursionError
  end.

(** An object passed as metadata, as [json.dumps] sees it: one that it
    writes, as the JSON value [v], or one on which it raises. *)
Inductive pyobject : Type :=
| Encodable (v : json)
| Unencodable (e : dumps_error).

(** [json.dumps] on the metadata: the dictionary is written in the order
    of its keys, and the first object that cannot be written raises. *)
Fixpoint json_dumps (m : list (string * pyobject)) : outcome (list (string * json)) :=
  match m with
  | [] => Returned []
  | (k, Encodable v) :: m' =>
      match json_dumps m' with
      | Returned written => Returned ((k, v) :: written)
      | Raised e => Raised e
      end
  | (_, Unencodable e) :: _ => Raised (dumps_exn e)
  end.

Record event := mk_event {
  source : string;
  text : string;
  received_at : string;
  meta : list (string * pyobject);
  category : option string;
  entities : option entity_info
}.

(** [DataIngestion.ingest(source, text, **kwargs)]. *)
Definition ingest (now : string) (src txt : string)
  (kwargs : list (string * pyobject)) : event :=
  {| source := src; text := strip txt; received_at := now; meta := kwargs;
     category := None; entities := None |}.

(** [Normalization.normalize(record)]. *)
Definition normalize (r : event) : event :=
  {| source := source r; text := normalize_text (text r); received_at := received_at r;
     meta := meta r; category := category r; entities := entities r |}.

(** [ClassificationEngine.classify(record)]. *)
Definition classify (r : event) : event :=
  {| source := source r; text := text r; received_at := received_at r;
     meta := meta r;
     category := Some (first_match CATEGORIES (text r) "UNCLASSIFIED");
     entities := entities r |}.

(** [EnrichmentEngine.enrich(record)]. *)
Definition enrich (r : event) : event :=
  {| source := source r; text := text r; received_at := received_at r;
     meta := meta r; category := category r;
     entities := Some {| location := "unknown"; timestamp := received_at r; actors := [] |} |}.

Record result := mk_result {
  status : string;
  reason : option string;
  result_event : option event
}.

Definition result_category (r : result) : option string :=
  result_event r ≫= category.

Section Pipeline.
Variable sha256_hexdigest : string → string.

(** [DeduplicationEngine.validate_and_store]: the tuple of parameters,
    [json.dumps(record.get("meta", {}))] among them, is built after the
    two checks and before the [INSERT]. *)
Definition validate_and_store (db : list row) (record : event)
  : outcome bool * list row :=
  let txt := text record in
  if (String.length txt <? 5) || is_duplicate sha256_hexdigest db txt
  then (Returned false, db)
  else
    match json_dumps (meta record) with
    | Raised e => (Raised e, db)
    | Returned written =>
        match insert_event db (source record) txt (_hash sha256_hexdigest txt)
                (received_at record) written with
        | Some db' => (Returned true, db')
        | None => (Raised IntegrityError, db)
        end
    end.

(** [InformationSuperiorityPipeline.process_event(source, text, **meta)]. *)
Definition process_event (db : list row) (now src txt : string)
  (kwargs : list (string * pyobject)) : outcome result * list row :=
  let ev := ingest now src txt kwargs in
  let ev := normalize ev in
  match validate_and_store db ev with
  | (Raised e, db') => (Raised e, db')
  | (Returned false, db') =>
      (Returned {| status := "rejected"; reason := Some "duplicate_or_invalid";
                   result_event := None |}, db')
  | (Returned true, db') =>
      let ev := classify ev in
      let ev := enrich ev in
      (Returned {| status := "processed"; reason := None;
                   result_event := Some ev |}, db')
  end.

End Pipeline.

(** Metadata that [json.dumps] writes, records and results that hold such
    metadata: the ones of the definitions above. *)
Definition encodable (kwargs : list (string * json)) : list (string * pyobject) :=
  map (λ kv, (kv.1, Encodable kv.2)) kwargs.

End AnyMeta.

(** The record and the result of the pipeline above, read as ones with
    metadata of any kind. *)
Definition any_event (r : event) : AnyMeta.event :=
  {| AnyMeta.source := source r; AnyMeta.text := text r;
     AnyMeta.received_at := received_at r; AnyMeta.meta := AnyMeta.encodable (meta r);
     AnyMeta.category := category r; AnyMeta.entities := entities r |}.

Definition any_result (r : result) : AnyMeta.result :=
  {| AnyMeta.status := status r; AnyMeta.reason := reason r;
     AnyMeta.result_event := any_event <$> result_event r |}.

(** ** The HTTP endpoint of [api/app/main.py] *)

Module Api.

(** A row of the PostgreSQL table [events]; [category] is a [TEXT] column,
    SQL [NULL] in it is [None]. *)
Record api_row := mk_api_row {
  id : nat;
  source : string;
  text : string;
  received_at : string;
  hash : string;
  meta : option (list (string * json));
  category : option string;
  provenance : json
}.

(** The table and the sequence behind its [SERIAL] key. *)
Record database := mk_database {
  events : list api_row;
  events_id_seq : nat
}.

(** [IngestPayload]. *)
Record IngestPayload := mk_payload {
  payload_source : string;
  payload_text : string;
  payload_meta : option (list (string * json))
}.

(** What [requests.post(ML_STUB, ...)] followed by [r.json()] comes to. *)
Inductive oracle_reply : Type :=
| OracleUnreachable            (* [requests.post] raises: no connection, timeout *)
| OracleBodyNotJson            (* [r.json()] raises: the body is not JSON *)
| OracleJson (v : json).       (* [r.json()] returns [v] *)

(** The dictionaries [ingest] returns. *)
Inductive ingest_result : Type :=
| IngestRejected (reason : string)              (* status "rejected" *)
| IngestAccepted (eid : nat) (cat : json).      (* status "accepted" *)


(** [d.get(key)] on a decoded JSON value: [None] (Python's) is [JNull];
    the outer [None] is the [AttributeError] of a value that is no dict.
    Of two fields with one key the later one is the dict's. *)
Definition dict_get (d : json) (key : string) : option json :=
  match d with
  | JObj fields =>
      Some (foldl (λ acc kv, if String.eqb kv.1 key then kv.2 else acc) JNull fields)
  | _ => None
  end.

(** The answer [ingest] falls back to in its [except] branch. *)
Definition fallback_ml_out : json :=
  JObj [("category", JStr "UNCLASSIFIED"); ("confidence", JNum 0)].

(** The character NUL occurs in a string, and in a string or a key of a
    JSON value. *)
Definition has_nul (s : string) : bool :=
  existsb (λ c, Ascii.eqb c "000"%char) (list_ascii_of_string s).

Fixpoint json_has_nul (v : json) : bool :=
  match v with
  | JStr s => has_nul s
  | JArr items => existsb json_has_nul items
  | JObj fields => existsb (λ kv, has_nul kv.1 || json_has_nul kv.2) fields
  | _ => false
  end.

(** [json.dumps(record.get("meta", {}))] read by PostgreSQL as [JSONB]:
    the metadata of the payload, or [null]. *)
Definition meta_has_nul (m : option (list (string * json))) : bool :=
  match m with
  | Some fields => json_has_nul (JObj fields)
  | None => false
  end.

(** The ways psycopg2 and PostgreSQL refuse a parameter of a statement. *)
Inductive refusal : Type :=
| NulInString        (* psycopg2: [ValueError], a string holds a NUL *)
| NotAdapted         (* [psycopg2.ProgrammingError] *)
| NotRead.           (* [psycopg2.DataError] *)

Definition refusal_exn (r : refusal) : exn :=
  match r with
  | NulInString => ValueError
  | NotAdapted => ProgrammingError
  | NotRead => DataError
  end.

Section Endpoint.
Variable sha256_hexdigest : string → string.
(** What becomes of a category that is a number, a boolean or a list:
    the text PostgreSQL stores for the value psycopg2 sends, or the way
    psycopg2 or PostgreSQL refuses it. *)
Variable pg_text : json → string + refusal.

(** [make_hash]. *)
Definition make_hash (txt : string) : string :=
  sha256_hexdigest (str_lower (strip txt)).

(** [check_duplicate]: [SELECT 1 FROM events WHERE hash=%s]. *)
Definition check_duplicate (db : database) (txt : string) : bool :=
  let h := make_hash txt in
  bool_decide (h ∈ map hash (events db)).

(** The category as the [TEXT] column takes it: [None] is [NULL], a string
    is itself unless it holds a NUL, which psycopg2 refuses in any string;
    psycopg2 cannot adapt a dict; a number, a boolean or a list is sent as
    an SQL value of its kind, which PostgreSQL stores as text or refuses. *)
Definition adapt_category (cat : json) : outcome (option string) :=
  match cat with
  | JNull => Returned None
  | JStr s => if has_nul s then Raised ValueError else Returned (Some s)
  | JObj _ => Raised ProgrammingError
  | JNum _ | JBool _ | JArr _ =>
      match pg_text cat with
      | inl s => Returned (Some s)
      | inr r => Raised (refusal_exn r)
      end
  end.

(** [save_event]: the [INSERT ... RETURNING id].  psycopg2 adapts the
    parameters in their order and refuses a string with a NUL; PostgreSQL
    reads the statement and refuses a [JSONB] value with a NUL in a string
    or a key (written [\u0000] by [json.dumps]); in these cases nothing
    is stored and the sequence is not advanced.  [h] is a hexadecimal
    digest, [recv] a [datetime]: both are always taken.  The sequence
    advances even when the [hash TEXT UNIQUE] constraint refuses the row. *)
Definition save_event (db : database) (src txt recv h : string)
  (m : option (list (string * json))) (cat prov : json) : outcome nat * database :=
  if has_nul src || has_nul txt then (Raised ValueError, db)
  else
    match adapt_category cat with
    | Raised e => (Raised e, db)
    | Returned c =>
        if meta_has_nul m || json_has_nul prov then (Raised DataError, db)
        else
          let eid := S (events_id_seq db) in
          if bool_decide (h ∈ map hash (events db))
          then (Raised IntegrityError, {| events := events db; events_id_seq := eid |})
          else (Returned eid,
                {| events := events db ++ [mk_api_row eid src txt recv h m c prov];
                   events_id_seq := eid |})
    end.

(** [ingest(payload, request)]: [client] is [request.client.host],
    [now_prov] and [now_record] the two readings of the clock, [reply]
    what the classification oracle does. *)
Definition ingest (db : database) (payload : IngestPayload)
  (client now_prov now_record : string) (reply : oracle_reply)
  : outcome ingest_result * database :=
  let txt := strip (payload_text payload) in
  if String.length txt <? 5 then (Raised (HTTPException 400 "Text too short"), db)
  else if check_duplicate db txt then (Returned (IngestRejected "duplicate"), db)
  else
    let prov := JObj [("ingested_by", JStr "api"); ("ingested_at", JStr now_prov);
                      ("client", JStr client)] in
    let ml_out := match reply with
                  | OracleJson v => v
                  | OracleUnreachable | OracleBodyNotJson => fallback_ml_out
                  end in
    match dict_get ml_out "category" with
    | None => (Raised AttributeError, db)
    | Some cat =>
        match save_event db (payload_source payload) txt now_record (make_hash txt)
                (payload_meta payload) cat
                (JObj [("ingest", prov); ("ml", ml_out)]) with
        | (Returned eid, db') => (Returned (IngestAccepted eid cat), db')
        | (Raised e, db') => (Raised e, db')
        end
    end.

End Endpoint.

End Api.

(** ** The script at the end of [karkas.py] *)

(** [examples]. *)
Definition examples : list (string * string) :=
  [ ("OSINT", "Peaceful protest observed in Almaty");
    ("SENSOR", "Power outage detected in north sector");
    ("API", "Threat detected near border checkpoint");
    ("NEWS", "Protest gathering planned tomorrow") ].

Section Script.
Variable sha256_hexdigest : string → string.

(** [for src, text in examples: result = engine.process_event(src, text);
    print(result)]: what the loop prints and the table it leaves.
    [clock n] is the time read by the call of index [n]; an exception ends
    the loop, and is the last entry. *)
Fixpoint process_all (clock : nat → string) (n : nat) (db : list row)
  (calls : list (string * string)) : list (outcome result) * list row :=
  match calls with
  | [] => ([], db)
  | (src, txt) :: calls' =>
      match process_event sha256_hexdigest db (clock n) src txt [] with
      | (Returned r, db') =>
          let '(rs, db'') := process_all clock (S n) db' calls' in
          (Returned r :: rs, db'')
      | (Raised e, db') => ([Raised e], db')
      end
  end.

Definition raised {A : Type} (o : outcome A) : bool :=
  match o with
  | Raised _ => true
  | Returned _ => false
  end.

(** The script: the engine is built, the loop runs over [examples], then
    [print(engine.analyze_all())], which an exception in the loop does not
    reach. *)
Definition main (clock : nat → string) (db : list row)
  : list (outcome result) * list row :=
  let '(printed, db') := process_all clock 0 (_init_db db) examples in
  if existsb raised printed then (printed, db')
  else (printed ++ [Returned (analyze_all db').1], (analyze_all db').2).

End Script.

(** ** The read endpoints of [api/app/main.py] and sequences of requests *)

Module ApiRead.

(** One dictionary of the list [list_events] returns.  The timestamp is
    named by its ISO text, which [r[3].isoformat()] gives back. *)
Record listed_event := mk_listed {
  listed_id : nat;
  listed_source : string;
  listed_text : string;
  listed_received_at : string;
  listed_category : option string
}.

Definition to_listed (r : Api.api_row) : listed_event :=
  {| listed_id := Api.id r; listed_source := Api.source r; listed_text := Api.text r;
     listed_received_at := Api.received_at r; listed_category := Api.category r |}.

(** [ORDER BY id DESC]. *)
Definition id_desc (x y : Api.api_row) : Prop := Api.id y ≤ Api.id x.

Global Instance id_desc_dec (x y : Api.api_row) : Decision (id_desc x y).
Proof. unfold id_desc. apply _. Defined.

(** [list_events(limit)]: [SELECT ... FROM events ORDER BY id DESC LIMIT %s].
    [None] is the error the database raises for a [LIMIT] that is negative
    or no [bigint]. *)
Definition list_events (db : Api.database) (limit : Z) : option (list listed_event) :=
  if ((limit <? 0) || (2 ^ 63 <=? limit))%Z then None
  else Some (map to_listed
               (take (Z.to_nat limit) (merge_sort id_desc (Api.events db)))).

(** The default of the query parameter, [limit: int = 50]. *)
Definition default_limit : Z := 50.

(** [r[0] or "UNCLASSIFIED"] on the category of a group: [None] is SQL's
    [NULL], which like the empty string is false in Python. *)
Definition summary_key (c : option string) : string :=
  match c with
  | None => "UNCLASSIFIED"
  | Some EmptyString => "UNCLASSIFIED"
  | Some s => s
  end.

(** [{r[0] or "UNCLASSIFIED": r[1] for r in rows}]: a later row with the
    key of an earlier one replaces it. *)
Definition summary_dict (rows : list (option string * nat)) : gmap string nat :=
  foldl (λ m r, <[summary_key r.1 := r.2]> m) ∅ rows.

(** The number of rows of the table with a given category. *)
Definition count_category (c : option string) (categories : list (option string)) : nat :=
  length (filter (λ x, x = c) categories).

(** What [SELECT category, count( * ) FROM events GROUP BY category] may
    return for a table whose category column is [categories]: one row for
    each category present, with its count, in an order that is not
    specified. *)
Definition grouped (categories : list (option string))
  (rows : list (option string * nat)) : Prop :=
  NoDup (map fst rows)
  ∧ ∀ c n, (c, n) ∈ rows ↔ n = count_category c categories ∧ 0 < n.

(** One such answer. *)
Definition group_rows (categories : list (option string))
  : list (option string * nat) :=
  map (λ c, (c, count_category c categories)) (remove_dups categories).

End ApiRead.

(** A request to [ingest], with what the clock and the oracle do during it. *)
Record ingest_call := mk_ingest_call {
  call_payload : Api.IngestPayload;
  call_client : string;
  call_now_prov : string;
  call_now_record : string;
  call_reply : Api.oracle_reply
}.

(** The database after a sequence of requests to [ingest]. *)
Definition run_ingests (sha256_hexdigest : string → string)
  (pg_text : json → string + Api.refusal) (db : Api.database)
  (calls : list ingest_call) : Api.database :=
  foldl (λ d c, (Api.ingest sha256_hexdigest pg_text d (call_payload c) (call_client c)
                   (call_now_prov c) (call_now_record c) (call_reply c)).2) db calls.

(** ** The classifier stub of [application.py] *)

Module MlStub.

(** A keyword written in Cyrillic letters ([митинг], [угроза],
    [отключение]): none of its letters is a code point below 256, so it
    occurs in no text of this embedding. *)
Definition cyrillic_in (t : string) : bool := false.

Definition answer (cat : string) (confidence : Q) : json :=
  JObj [("category", JStr cat); ("confidence", JNum confidence)].

(** [classify_text(text)]. *)
Definition classify_text (txt : string) : json :=
  let t := str_lower txt in
  if str_contains "protest" t || cyrillic_in t
  then answer "CIVIL_ACTIVITY" (92 # 100)
  else if str_contains "threat" t || str_contains "attack" t || cyrillic_in t
  then answer "SECURITY_ALERT" (95 # 100)
  else if str_contains "outage" t || str_contains "power" t || cyrillic_in t
  then answer "INFRASTRUCTURE" (88 # 100)
  else answer "UNCLASSIFIED" (20 # 100).

(** The route [/classify] on the body [ingest] posts, [{"text": text}]:
    the oracle's reply is the JSON of [classify_text(text)]. *)
Definition classify (txt : string) : Api.oracle_reply :=
  Api.OracleJson (classify_text txt).

End MlStub.

(** * The vocabulary of the statements *)

(** [kw] occurs in [txt]: the meaning of Python's [kw in txt]. *)
Definition occurs_in (kw txt : string) : Prop :=
  ∃ pre post : string, txt = String.append pre (String.append kw post).

(** The sum of all the counts of a summary. *)
Definition total_count (summary : gmap string nat) : nat :=
  map_fold (λ _ n acc, n + acc) 0 summary.

(** An event counts under [c] when [c] is its category, or when it has none
    and [c] is UNCLASSIFIED. *)
Definition counted_under (c : string) (r : event) : Prop :=
  category r = Some c ∨ (category r = None ∧ c = "UNCLASSIFIED").

Global Instance counted_under_dec (c : string) (r : event) : Decision (counted_under c r).
Proof. unfold counted_under. apply _. Defined.

(** How many events of a list count under [c]. *)
Definition events_under (c : string) (records : list event) : nat :=
  length (filter (counted_under c) records).

(** The three grounds on which [validate_and_store] rejects a text. *)
Definition too_short (txt : string) : Prop := String.length txt < 5.

Definition exact_duplicate (h : string) (db : list row) : Prop :=
  h ∈ map row_hash db.

Definition near_duplicate_in (txt : string) (db : list row) : Prop :=
  ∃ existing, existing ∈ map row_text db ∧ (9 # 10 < str_ratio txt existing)%Q.

(** The row [validate_and_store] inserts for a record. *)
Definition row_of (h : string) (db : list row) (r : event) : row :=
  mk_row (next_rowid db) (source r) (text r) h (received_at r) (meta r).

(** The characters of a string, and two strings without a common one. *)
Definition chars (s : string) : list ascii := list_ascii_of_string s.

Definition no_common_char (s t : string) : Prop :=
  ∀ c, c ∈ chars s → c ∉ chars t.

(** A digest for the examples: the text itself, which no two texts share. *)
Definition plain_digest (txt : string) : string := txt.

(** A block that lies in the window [a[alo:ahi]], [b[blo:bhi]]. *)
Definition in_range (alo ahi blo bhi : nat) (best : block) : Prop :=
  alo ≤ best.1.1 ∧ blo ≤ best.1.2
  ∧ best.1.1 + best.2 ≤ ahi ∧ best.1.2 + best.2 ≤ bhi.

(** The entries of [j2len] after [n] rows: keys inside the window of [b],
    lengths bounded by the rows and columns available. *)
Definition j2len_ok (blo bhi n : nat) (j2len : gmap nat nat) : Prop :=
  ∀ j k, j2len !! j = Some k → blo ≤ j ∧ j < bhi ∧ k ≤ n ∧ k ≤ S j - blo.

(** A queued window [(alo, ahi, blo, bhi)] with [alo <= ahi], [blo <= bhi]. *)
Definition window_ok (w : nat * nat * nat * nat) : Prop :=
  w.1.1.1 ≤ w.1.1.2 ∧ w.1.2 ≤ w.2.

(** Room left in [a] and in [b] by the windows still queued. *)
Definition room_a (queue : list (nat * nat * nat * nat)) : nat :=
  foldr (λ w acc, (w.1.1.2 - w.1.1.1) + acc) 0 queue.

Definition room_b (queue : list (nat * nat * nat * nat)) : nat :=
  foldr (λ w acc, (w.2 - w.1.2) + acc) 0 queue.

(** A bound on the turns the loop of [get_matching_blocks] still takes. *)
Definition turns (queue : list (nat * nat * nat * nat)) : nat :=
  foldr (λ w acc, (2 * (w.1.1.2 - w.1.1.1) + 1) + acc) 0 queue.

Section SequenceMatcherVocabulary.
Context {A : Type} `{Countable A}.

(** The positions of [c] in [b], counted from [i]. *)
Fixpoint positions (c : A) (i : nat) (b : list A) : list nat :=
  match b with
  | [] => []
  | x :: b' =>
      if decide (x = c) then i :: positions c (S i) b' else positions c (S i) b'
  end.

(** When [a] is matched against itself: the number of consecutive rows,
    ending at row [i], that have candidates in [b2j], which is the length
    of the diagonal run the scan has reached at [(i, i)]. *)
Fixpoint run (a : list A) (i : nat) : nat :=
  match b2j_get a (chain_b a) i with
  | [] => 0
  | _ => S (match i with 0 => 0 | S i' => run a i' end)
  end.

Definition run_before (a : list A) (i : nat) : nat :=
  match i with 0 => 0 | S i' => run a i' end.

(** What holds of [j2len] and [best] when the scan of [a] against itself
    reaches row [i]. *)
Definition row_inv (a : list A) (i : nat) (j2len : gmap nat nat) (best : block) : Prop :=
  (∀ j k, j2len !! j = Some k → k ≤ run_before a i ∧ k ≤ run a j)
  ∧ j2lenget j2len i = run_before a i
  ∧ best.1.1 = best.1.2
  ∧ (∀ j, j < i → run a j ≤ best.2).

(** What holds inside row [i], with the candidates [js] still to see. *)
Definition scan_inv (a : list A) (i : nat) (js : list nat) (newj2len : gmap nat nat)
  (best : block) : Prop :=
  (∀ j k, newj2len !! j = Some k → k ≤ run a i ∧ k ≤ run a j)
  ∧ (i ∈ js ∨ (newj2len !! i = Some (run a i) ∧ run a i ≤ best.2))
  ∧ best.1.1 = best.1.2
  ∧ (∀ j, j < i → run a j ≤ best.2).

End SequenceMatcherVocabulary.

(** A word with no whitespace at its first and last place. *)
Definition no_outer_space (kw : string) : bool :=
  match kw with
  | EmptyString => false
  | String c _ => negb (is_space c)
  end
  && match rstrip kw with
     | EmptyString => false
     | _ => String.eqb (rstrip kw) kw
     end.

(** The labels [classify] can give. *)
Definition LABELS : list string :=
  ["CIVIL_ACTIVITY"; "SECURITY_ALERT"; "INFRASTRUCTURE"; "CRISIS_EVENT"; "UNCLASSIFIED"].

(** Every row carries the digest of its own text, and a text of 5
    characters or more. *)
Definition table_consistent (digest : string → string) (db : list row) : Prop :=
  Forall (λ x, row_hash x = digest (row_text x) ∧ 5 ≤ String.length (row_text x)) db.

(** No stored text was a near duplicate of a text stored before it: its
    ratio as the first argument, against each earlier text as the second,
    is 9/10 or less.  This is the order in which [is_duplicate] compares;
    the ratio with the arguments exchanged is not bounded by it. *)
Definition later_not_near_earlier (db : list row) : Prop :=
  ∀ i j x y, i < j → db !! i = Some x → db !! j = Some y →
    (str_ratio (row_text y) (row_text x) <= 9 # 10)%Q.

(** The conditions under which [validate_and_store] accepts a record. *)
Definition accepted_by (digest : string → string) (db : list row) (r : event) : Prop :=
  5 ≤ String.length (text r)
  ∧ ¬ exact_duplicate (digest (text r)) db
  ∧ ∀ existing, existing ∈ map row_text db → (str_ratio (text r) existing <= 9 # 10)%Q.

(** The three checks of [validate_and_store] let a text through. *)
Definition text_accepted (digest : string → string) (db : list row) (t : string) : Prop :=
  5 ≤ String.length t
  ∧ ¬ exact_duplicate (digest t) db
  ∧ ∀ existing, existing ∈ map row_text db → (str_ratio t existing <= 9 # 10)%Q.

(** The table refuses a raw text: normalized, it is too short or a
    duplicate. *)
Definition refused (digest : string → string) (db : list row) (txt : string) : Prop :=
  (String.length (normalize_text txt) <? 5)
  || is_duplicate digest db (normalize_text txt) = true.

(** What every row of the endpoint's table satisfies when all of them came
    through [ingest]: the hashes differ, the ids grow along the table and
    stay within the sequence, each hash is [make_hash] of its text, and
    each text is stripped and has 5 characters or more. *)
Definition api_ok (digest : string → string) (db : Api.database) : Prop :=
  NoDup (map Api.hash (Api.events db))
  ∧ StronglySorted (λ x y, Api.id x < Api.id y) (Api.events db)
  ∧ Forall (λ r, Api.id r ≤ Api.events_id_seq db
                 ∧ Api.hash r = Api.make_hash digest (Api.text r)
                 ∧ 5 ≤ String.length (Api.text r)
                 ∧ strip (Api.text r) = Api.text r) (Api.events db).

(** The ids of the table are 1, 2, ... up to the value of the sequence. *)
Definition ids_dense (db : Api.database) : Prop :=
  map Api.id (Api.events db) = seq 1 (Api.events_id_seq db).

(** The table before any request. *)
Definition empty_database : Api.database :=
  {| Api.events := []; Api.events_id_seq := 0 |}.


(** The provenance [ingest] records. *)
Definition provenance_of (client now_prov : string) (ml_out : json) : json :=
  JObj [("ingest", JObj [("ingested_by", JStr "api"); ("ingested_at", JStr now_prov);
                         ("client", JStr client)]);
        ("ml", ml_out)].

(** For the examples: a server that stores the booleans as [true] and
    [false] and the number 5 as [5], and is taken to refuse any other
    number and every list. *)
Definition sample_pg_text (v : json) : string + Api.refusal :=
  match v with
  | JBool true => inl "true"
  | JBool false => inl "false"
  | JNum q => if Qeq_bool q 5 then inl "5" else inr Api.NotRead
  | _ => inr Api.NotAdapted
  end.

(** When the stub and the pipeline's classifier answer differently on a
    lowered text: neither [protest] nor [threat] occurs, and [attack]
    occurs, or [power] without [outage]. *)
Definition classifiers_differ (t : string) : Prop :=
  ¬ occurs_in "protest" t ∧ ¬ occurs_in "threat" t
  ∧ (occurs_in "attack" t ∨ (occurs_in "power" t ∧ ¬ occurs_in "outage" t)).

(** The categories the stub answers with. *)
Definition STUB_LABELS : list string :=
  ["CIVIL_ACTIVITY"; "SECURITY_ALERT"; "INFRASTRUCTURE"; "UNCLASSIFIED"].

(** * Properties *)


(** ** Strings *)

Lemma lower_char_idem (c : ascii) : lower_char (lower_char c) = lower_char c.
Proof. destruct c as [[] [] [] [] [] [] [] []]; vm_compute; reflexivity. Qed.

Lemma is_space_lower_char (c : ascii) : is_space (lower_char c) = is_space c.
Proof. destruct c as [[] [] [] [] [] [] [] []]; vm_compute; reflexivity. Qed.

Lemma str_lower_idem (s : string) : str_lower (str_lower s) = str_lower s.
Proof. induction s as [|c s IH]; simpl; [done|]. by rewrite lower_char_idem, IH. Qed.

Lemma lstrip_idem (s : string) : lstrip (lstrip s) = lstrip s.
Proof.
  induction s as [|c s IH]; simpl; [done|].
  destruct (is_space c) eqn:Hc; [done|]. simpl. by rewrite Hc.
Qed.

Lemma rstrip_idem (s : string) : rstrip (rstrip s) = rstrip s.
Proof.
  induction s as [|c s IH]; simpl; [done|].
  destruct (rstrip s) as [|d r] eqn:Hr.
  - destruct (is_space c) eqn:Hc; simpl; [done|]. by rewrite Hc.
  - change (rstrip (String c (String d r)) = String c (String d r)).
    cbn [rstrip]. cbn [rstrip] in IH. by destruct (rstrip r); rewrite IH.
Qed.

Lemma lstrip_rstrip (s : string) : lstrip (rstrip s) = rstrip (lstrip s).
Proof.
  induction s as [|c s IH]; simpl; [done|].
  destruct (is_space c) eqn:Hc.
  - destruct (rstrip s) as [|d r] eqn:Hr.
    + by rewrite <- IH.
    + simpl. by rewrite Hc.
  - cbn [rstrip]. destruct (rstrip s) as [|d r]; simpl; by rewrite Hc.
Qed.

Lemma strip_idem (s : string) : strip (strip s) = strip s.
Proof.
  unfold strip. by rewrite lstrip_rstrip, rstrip_idem, lstrip_idem.
Qed.

Lemma str_lower_lstrip (s : string) : str_lower (lstrip s) = lstrip (str_lower s).
Proof.
  induction s as [|c s IH]; simpl; [done|].
  rewrite is_space_lower_char. by destruct (is_space c).
Qed.

Lemma str_lower_rstrip (s : string) : str_lower (rstrip s) = rstrip (str_lower s).
Proof.
  induction s as [|c s IH]; simpl; [done|].
  rewrite is_space_lower_char, <- IH.
  destruct (rstrip s); simpl; [|done]. by destruct (is_space c).
Qed.

Lemma str_lower_strip (s : string) : str_lower (strip s) = strip (str_lower s).
Proof. unfold strip. by rewrite str_lower_rstrip, str_lower_lstrip. Qed.

Lemma lstrip_strip (s : string) : lstrip (strip s) = strip s.
Proof. unfold strip. by rewrite lstrip_rstrip, lstrip_idem. Qed.

Lemma rstrip_strip (s : string) : rstrip (strip s) = strip s.
Proof. unfold strip. by rewrite rstrip_idem. Qed.

Lemma prefix_spec (p s : string) :
  String.prefix p s = true ↔ ∃ post, s = String.append p post.
Proof.
  revert p. induction s as [|d s IH]; intros [|c p]; simpl.
  - split; [intros _; by exists EmptyString|done].
  - split; [done|intros [? ?]; done].
  - split; [intros _; by exists (String d s)|done].
  - destruct (ascii_dec c d) as [->|Hne].
    + rewrite IH. split; intros [post Hp]; exists post; [by rewrite Hp|].
      simpl in Hp. by injection Hp.
    + split; [done|]. intros [post Hp]. simpl in Hp. by injection Hp.
Qed.

Lemma str_contains_spec (kw txt : string) :
  str_contains kw txt = true ↔ occurs_in kw txt.
Proof.
  unfold occurs_in. induction txt as [|c txt IH].
  - cbn [str_contains]. rewrite orb_false_r, prefix_spec. split.
    + intros [post Hp]. by exists EmptyString, post.
    + intros ([|d pre] & post & Hp); [by exists post|done].
  - cbn [str_contains]. rewrite orb_true_iff, prefix_spec, IH. split.
    + intros [[post Hp]|(pre & post & Hp)].
      * by exists EmptyString, post.
      * exists (String c pre), post. simpl. by rewrite Hp.
    + intros ([|d pre] & post & Hp).
      * left. by exists post.
      * right. exists pre, post. simpl in Hp. by injection Hp.
Qed.

(** ** Normalisation *)

(** C8. Normalisation is a function of its input (trim and lower-case, in
    either order), its output has no whitespace left at either end and no
    upper-case letter, and normalising twice is normalising once, on texts
    and on records. *)
Theorem normalize_idempotent (x : string) (r : event) :
  normalize_text (normalize_text x) = normalize_text x
  ∧ normalize_text x = str_lower (strip x)
  ∧ strip (normalize_text x) = normalize_text x
  ∧ str_lower (normalize_text x) = normalize_text x
  ∧ normalize (normalize r) = normalize r
  ∧ text (normalize r) = normalize_text (text r).
Proof.
  assert (Hidem : ∀ y, normalize_text (normalize_text y) = normalize_text y).
  { intros y. unfold normalize_text.
    by rewrite str_lower_strip, str_lower_idem, strip_idem. }
  repeat split.
  - apply Hidem.
  - unfold normalize_text. by rewrite str_lower_strip.
  - unfold normalize_text. apply strip_idem.
  - unfold normalize_text. by rewrite str_lower_strip, str_lower_idem.
  - unfold normalize. simpl. by rewrite Hidem.
Qed.

(** ** Classification *)

Lemma first_match_hit (pre post : list (string * string)) (kw cat txt dflt : string) :
  str_contains kw txt = true →
  (∀ kw' cat', (kw', cat') ∈ pre → str_contains kw' txt = false) →
  first_match (pre ++ (kw, cat) :: post) txt dflt = cat.
Proof.
  intros Hkw. induction pre as [|[kw' cat'] pre IH]; intros Hpre; simpl.
  - by rewrite Hkw.
  - rewrite (Hpre kw' cat') by left. apply IH.
    intros kw'' cat'' Hin. apply (Hpre kw'' cat''). by right.
Qed.

Lemma first_match_miss (table : list (string * string)) (txt dflt : string) :
  (∀ kw cat, (kw, cat) ∈ table → str_contains kw txt = false) →
  first_match table txt dflt = dflt.
Proof.
  induction table as [|[kw cat] table IH]; intros Hno; simpl; [done|].
  rewrite (Hno kw cat) by left. apply IH.
  intros kw' cat' Hin. apply (Hno kw' cat'). by right.
Qed.

Lemma not_occurs_contains (kw txt : string) :
  ¬ occurs_in kw txt → str_contains kw txt = false.
Proof.
  intros Hno. destruct (str_contains kw txt) eqn:Hc; [|done].
  by apply str_contains_spec in Hc.
Qed.

Lemma category_classify (r : event) :
  category (classify r) = Some (first_match CATEGORIES (text r) "UNCLASSIFIED").
Proof. reflexivity. Qed.

(** C2. [classify] gives the category of the first entry of the table, in
    the order protest, threat, outage, attack, whose keyword occurs in the
    text, and UNCLASSIFIED when none occurs; a text with both protest and
    threat is CIVIL_ACTIVITY. *)
Theorem classify_first_keyword (r : event) :
  CATEGORIES = [ ("protest", "CIVIL_ACTIVITY"); ("threat", "SECURITY_ALERT");
                 ("outage", "INFRASTRUCTURE"); ("attack", "CRISIS_EVENT") ]
  ∧ (∀ pre post kw cat,
       CATEGORIES = pre ++ (kw, cat) :: post →
       occurs_in kw (text r) →
       (∀ kw' cat', (kw', cat') ∈ pre → ¬ occurs_in kw' (text r)) →
       category (classify r) = Some cat)
  ∧ ((∀ kw cat, (kw, cat) ∈ CATEGORIES → ¬ occurs_in kw (text r)) →
     category (classify r) = Some "UNCLASSIFIED")
  ∧ (occurs_in "protest" (text r) → occurs_in "threat" (text r) →
     category (classify r) = Some "CIVIL_ACTIVITY").
Proof.
  split; [done|]. split; [|split].
  - intros pre post kw cat Htab Hkw Hpre. rewrite category_classify, Htab. f_equal.
    apply first_match_hit; [by apply str_contains_spec|].
    intros kw' cat' Hin. apply not_occurs_contains. by apply (Hpre kw' cat').
  - intros Hno. rewrite category_classify. f_equal. apply first_match_miss.
    intros kw cat Hin. apply not_occurs_contains. by apply (Hno kw cat).
  - intros Hp _. rewrite category_classify. f_equal.
    apply (first_match_hit [] _ "protest"); [by apply str_contains_spec|].
    intros ? ? Hin. by apply elem_of_nil in Hin.
Qed.

(** C9. [classify] changes the category and nothing else: source, text,
    received_at, meta and entities are those of its argument. *)
Theorem classify_frame (r : event) :
  source (classify r) = source r
  ∧ text (classify r) = text r
  ∧ received_at (classify r) = received_at r
  ∧ meta (classify r) = meta r
  ∧ entities (classify r) = entities r
  ∧ classify r = {| source := source r; text := text r; received_at := received_at r;
                    meta := meta r; category := category (classify r);
                    entities := entities r |}.
Proof. by repeat split. Qed.

(** ** Analytics *)

Lemma category_of_counted (c : string) (r : event) :
  category_of r = c ↔ counted_under c r.
Proof.
  unfold category_of, counted_under. destruct (category r) as [c'|]; simpl.
  - split; [intros ->; by left|]. intros [Hc|[Hc _]]; congruence.
  - split; [intros <-; by right|]. by intros [Hc|[_ ->]].
Qed.

Lemma events_under_cons (c : string) (r : event) (rs : list event) :
  events_under c (r :: rs) =
  (if decide (counted_under c r) then 1 else 0) + events_under c rs.
Proof.
  unfold events_under. rewrite filter_cons. by destruct (decide (counted_under c r)).
Qed.

Lemma events_under_app (c : string) (rs more : list event) :
  events_under c (rs ++ more) = events_under c rs + events_under c more.
Proof. unfold events_under. by rewrite filter_app, length_app. Qed.

Lemma count_event_lookup (m : gmap string nat) (r : event) (c : string) :
  count_event m r !! c =
  if decide (counted_under c r) then Some (default 0 (m !! c) + 1) else m !! c.
Proof.
  unfold count_event. destruct (decide (counted_under c r)) as [Hc|Hc].
  - apply category_of_counted in Hc. rewrite Hc. apply lookup_insert_eq.
  - rewrite lookup_insert_ne; [done|]. intros Heq. by apply Hc, category_of_counted.
Qed.

Lemma foldl_count_event_lookup (rs : list event) (m : gmap string nat) (c : string) :
  foldl count_event m rs !! c =
  match events_under c rs with
  | 0 => m !! c
  | S k => Some (default 0 (m !! c) + S k)
  end.
Proof.
  revert m. induction rs as [|r rs IH]; intros m; [done|].
  cbn [foldl]. rewrite IH, events_under_cons, count_event_lookup.
  destruct (decide (counted_under c r)); simpl;
    destruct (events_under c rs); simpl; f_equal; lia.
Qed.

Lemma total_count_count_event (m : gmap string nat) (r : event) :
  total_count (count_event m r) = S (total_count m).
Proof.
  assert (Hcomm : ∀ (j1 j2 : string) (z1 z2 y : nat), z1 + (z2 + y) = z2 + (z1 + y))
    by (intros; lia).
  unfold count_event, total_count. set (c := category_of r).
  destruct (m !! c) as [n|] eqn:Hc; simpl.
  - rewrite <- (insert_delete_eq m c (n + 1)).
    rewrite map_fold_insert_L; [|by intros; apply Hcomm|apply lookup_delete_eq].
    rewrite (map_fold_delete_L _ _ c n m); [lia|by intros; apply Hcomm|done].
  - rewrite map_fold_insert_L; [lia|by intros; apply Hcomm|done].
Qed.

Lemma total_count_foldl (rs : list event) (m : gmap string nat) :
  total_count (foldl count_event m rs) = total_count m + length rs.
Proof.
  revert m. induction rs as [|r rs IH]; intros m; simpl; [lia|].
  rewrite IH, total_count_count_event. lia.
Qed.

(** C6. In the summary [analyze] returns, the count under a category is the
    number of events of the list that carry it (an event without a category
    counting under UNCLASSIFIED), a category with no event has no entry, the
    counts add up to the length of the list, and a count never goes down
    when events are appended. *)
Theorem analyze_counts (records : list event) :
  (∀ c n, analyze records !! c = Some n ↔ n = events_under c records ∧ 0 < n)
  ∧ (∀ r, category r = None → counted_under "UNCLASSIFIED" r)
  ∧ (∀ c r, category r = Some c → ∀ c', counted_under c' r ↔ c' = c)
  ∧ total_count (analyze records) = length records
  ∧ (∀ more c n, analyze records !! c = Some n →
       ∃ n', analyze (records ++ more) !! c = Some n' ∧ n ≤ n').
Proof.
  assert (Hlook : ∀ rs c n,
            analyze rs !! c = Some n ↔ n = events_under c rs ∧ 0 < n).
  { intros rs c n. unfold analyze. rewrite foldl_count_event_lookup, lookup_empty.
    destruct (events_under c rs); simpl; split.
    - done.
    - intros [-> ?]; lia.
    - intros [= <-]. lia.
    - intros [-> _]. done. }
  split; [apply Hlook|]. split; [by right|]. split; [|split].
  - intros c r Hr c'. unfold counted_under. rewrite Hr. split.
    + intros [[= ->]|[? _]]; done.
    + intros ->. by left.
  - unfold analyze. rewrite total_count_foldl. unfold total_count.
    by rewrite map_fold_empty.
  - intros more c n Hn. apply Hlook in Hn as [-> Hpos].
    exists (events_under c (records ++ more)). split.
    + apply Hlook. rewrite events_under_app. split; [done|lia].
    + rewrite events_under_app. lia.
Qed.

(** ** Sums of block sizes and the ratio *)

Lemma sum_sizes_app (l1 l2 : list block) :
  sum_sizes (l1 ++ l2) = sum_sizes l1 + sum_sizes l2.
Proof. induction l1 as [|x l1 IH]; simpl; [done|]. rewrite IH. lia. Qed.

Lemma sum_sizes_perm (l1 l2 : list block) :
  l1 ≡ₚ l2 → sum_sizes l1 = sum_sizes l2.
Proof. induction 1; simpl; lia. Qed.

Lemma collapse_adjacent_sum (blocks : list block) (cur : block) (non_adjacent : list block) :
  sum_sizes (collapse_adjacent blocks cur non_adjacent).1
    + (collapse_adjacent blocks cur non_adjacent).2.2
  = sum_sizes non_adjacent + cur.2 + sum_sizes blocks.
Proof.
  revert cur non_adjacent.
  induction blocks as [|[[i2 j2] k2] blocks IH]; intros [[i1 j1] k1] non_adjacent;
    simpl; [lia|].
  destruct ((i1 + k1 =? i2) && (j1 + k1 =? j2)); rewrite IH; simpl; [lia|].
  destruct (k1 =? 0) eqn:Hk; [apply Nat.eqb_eq in Hk; lia|].
  rewrite sum_sizes_app. simpl. lia.
Qed.

Lemma Zpos_of_nat (n : nat) : n ≠ 0 → Z.pos (Pos.of_nat n) = Z.of_nat n.
Proof. intros Hn. lia. Qed.

Lemma calculate_ratio_bounds (matches len : nat) :
  2 * matches ≤ len → (0 <= _calculate_ratio matches len <= 1)%Q.
Proof.
  intros Hm. unfold _calculate_ratio. destruct (len =? 0) eqn:Hlen; [done|].
  apply Nat.eqb_neq in Hlen. unfold Qle. simpl.
  rewrite Zpos_of_nat by done. lia.
Qed.

(** On binary64 floats the test [> 0.9] gives what the comparison of the
    exact ratio with 9/10 gives, for all lengths up to 300. *)
Lemma float_threshold_agrees (matches len : nat) :
  len ≤ 300 → matches ≤ len →
  above_threshold_float matches len
  = negb (Qle_bool (_calculate_ratio matches len) (9 # 10)).
Proof.
  intros Hlen Hm.
  assert (Hall : forallb (λ l, forallb (λ m,
                   Bool.eqb (above_threshold_float m l)
                     (negb (Qle_bool (_calculate_ratio m l) (9 # 10))))
                   (seq 0 (S l))) (seq 0 301) = true) by (vm_compute; reflexivity).
  rewrite forallb_forall in Hall. specialize (Hall len).
  rewrite forallb_forall in Hall. apply eqb_prop, Hall.
  - apply in_seq. lia.
  - apply in_seq. lia.
Qed.

Lemma calculate_ratio_zero (len : nat) : len ≠ 0 → (_calculate_ratio 0 len == 0)%Q.
Proof.
  intros Hlen. unfold _calculate_ratio. apply Nat.eqb_neq in Hlen. by rewrite Hlen.
Qed.

Lemma calculate_ratio_full (n : nat) : (_calculate_ratio n (n + n) == 1)%Q.
Proof.
  unfold _calculate_ratio. destruct (n + n =? 0) eqn:Hn; [done|].
  apply Nat.eqb_neq in Hn. unfold Qeq. simpl. rewrite Zpos_of_nat by done. lia.
Qed.

(** ** The sequence matcher *)

Section SequenceMatcherFacts.
Context {A : Type} `{Countable A}.
Implicit Types a b : list A.
Implicit Types b2j : gmap A (list nat).
Implicit Types j2len : gmap nat nat.

Lemma elem_of_positions (c : A) (i : nat) (b : list A) (j : nat) :
  j ∈ positions c i b ↔ i ≤ j ∧ b !! (j - i) = Some c.
Proof.
  revert i. induction b as [|x b IH]; intros i; simpl.
  - split; [by intros ?%elem_of_nil|by intros [_ ?]].
  - assert (Hrec : j ∈ positions c (S i) b ↔ i < j ∧ (x :: b) !! (j - i) = Some c).
    { rewrite IH. split; intros [Hle Hl]; (split; [lia|]).
      - by replace (j - i) with (S (j - S i)) by lia.
      - by replace (j - i) with (S (j - S i)) in Hl by lia. }
    destruct (decide (x = c)) as [->|Hne].
    + rewrite elem_of_cons, Hrec. split.
      * intros [->|[? ?]]; [|split; [lia|done]]. split; [lia|].
        by rewrite Nat.sub_diag.
      * intros [Hle Hl]. destruct (decide (j = i)) as [->|]; [by left|right].
        split; [lia|done].
    + rewrite Hrec. split; [intros [? ?]; split; [lia|done]|].
      intros [Hle Hl]. split; [|done].
      destruct (decide (j = i)) as [->|]; [|lia].
      rewrite Nat.sub_diag in Hl. simpl in Hl. congruence.
Qed.

Lemma positions_sorted (c : A) (i : nat) (b : list A) :
  StronglySorted lt (positions c i b).
Proof.
  revert i. induction b as [|x b IH]; intros i; simpl; [constructor|].
  destruct (decide (x = c)); [|apply IH]. constructor; [apply IH|].
  apply Forall_forall. intros j [Hj _]%elem_of_positions. lia.
Qed.

Lemma index_elements_lookup (b : list A) (i : nat) (b2j : gmap A (list nat)) (c : A) :
  index_elements b i b2j !! c =
  match positions c i b with
  | [] => b2j !! c
  | ps => Some (default [] (b2j !! c) ++ ps)
  end.
Proof.
  revert i b2j. induction b as [|x b IH]; intros i b2j; simpl; [done|].
  rewrite IH. unfold setdefault_append. destruct (decide (x = c)) as [->|Hne].
  - rewrite lookup_insert_eq. simpl.
    destruct (positions c (S i) b); [done|]. by rewrite <- app_assoc.
  - by rewrite lookup_insert_ne.
Qed.

(** Every list of [b2j] is the list of all positions of its key in [b],
    in increasing order. *)
Lemma chain_b_lookup (b : list A) (c : A) (js : list nat) :
  chain_b b !! c = Some js → js = positions c 0 b ∧ js ≠ [].
Proof.
  assert (Hidx : index_elements b 0 ∅ !! c = Some js → js = positions c 0 b ∧ js ≠ []).
  { rewrite index_elements_lookup, lookup_empty.
    destruct (positions c 0 b); [done|]. simpl. by intros [= <-]. }
  unfold chain_b. destruct (200 <=? length b); [|done].
  intros [Hl _]%map_lookup_filter_Some. by apply Hidx.
Qed.

Lemma b2j_get_chain_b (a b : list A) (i j : nat) :
  j ∈ b2j_get a (chain_b b) i → ∃ x, a !! i = Some x ∧ b !! j = Some x.
Proof.
  unfold b2j_get. destruct (a !! i) as [x|]; [|by intros ?%elem_of_nil].
  destruct (chain_b b !! x) as [js|] eqn:Hjs; simpl; [|by intros ?%elem_of_nil].
  apply chain_b_lookup in Hjs as [-> _]. intros [_ Hj]%elem_of_positions.
  exists x. by rewrite Nat.sub_0_r in Hj.
Qed.

(** *** The block found lies in the window searched *)

Lemma j2lenget_bound (blo bhi n : nat) (j2len : gmap nat nat) (j : nat) :
  j2len_ok blo bhi n j2len → blo ≤ j →
  j2lenget j2len j ≤ n ∧ j2lenget j2len j ≤ j - blo.
Proof.
  intros Hok Hj. destruct j as [|j']; simpl; [lia|].
  destruct (j2len !! j') as [k|] eqn:Hk; simpl; [|lia].
  apply Hok in Hk. lia.
Qed.

Lemma scan_row_range (alo ahi blo bhi n i : nat) (j2len : gmap nat nat)
  (js : list nat) (newj2len : gmap nat nat) (best : block) :
  j2len_ok blo bhi n j2len → alo ≤ i → n ≤ i - alo → i < ahi →
  j2len_ok blo bhi (S n) newj2len → in_range alo ahi blo bhi best →
  j2len_ok blo bhi (S n) (scan_row j2len i blo bhi js newj2len best).1
  ∧ in_range alo ahi blo bhi (scan_row j2len i blo bhi js newj2len best).2.
Proof.
  intros Hok Hi Hn Hahi. revert newj2len best.
  induction js as [|j js IH]; intros newj2len best Hnew Hbest; simpl; [done|].
  destruct (j <? blo) eqn:Hjlo; [by apply IH|].
  destruct (bhi <=? j) eqn:Hjhi; [done|].
  apply Nat.ltb_ge in Hjlo. apply Nat.leb_gt in Hjhi.
  destruct (j2lenget_bound blo bhi n j2len j Hok Hjlo) as [Hk1 Hk2].
  apply IH.
  - intros j' k'. rewrite lookup_insert. case_decide as Hjj.
    + intros [= <-]. subst j'. lia.
    + apply Hnew.
  - destruct (best.2 <? j2lenget j2len j + 1); [|done].
    unfold in_range. simpl. lia.
Qed.

Lemma scan_rows_range (a : list A) (b2j : gmap A (list nat))
  (alo ahi blo bhi m i : nat) (j2len : gmap nat nat) (best : block) :
  alo ≤ i → i + m ≤ ahi →
  j2len_ok blo bhi (i - alo) j2len → in_range alo ahi blo bhi best →
  in_range alo ahi blo bhi (scan_rows a b2j blo bhi (seq i m) j2len best).
Proof.
  revert i j2len best. induction m as [|m IH]; intros i j2len best Hi Hm Hok Hbest;
    simpl; [done|].
  destruct (scan_row j2len i blo bhi _ ∅ best) as [newj2len best'] eqn:Hrow.
  assert (Hempty : j2len_ok blo bhi (S (i - alo)) ∅).
  { intros j k. by rewrite lookup_empty. }
  destruct (scan_row_range alo ahi blo bhi (i - alo) i j2len
              (b2j_get a b2j i)
              ∅ best Hok Hi) as [Hok' Hbest']; [lia|lia|done|done|].
  rewrite Hrow in Hok', Hbest'. simpl in Hok', Hbest'.
  apply IH; [lia|lia| |done].
  by replace (S i - alo) with (S (i - alo)) by lia.
Qed.

Lemma extend_left_range (a b : list A) (junk : bool) (alo ahi blo bhi : nat)
  (besti bestj bestsize : nat) :
  in_range alo ahi blo bhi (besti, bestj, bestsize) →
  in_range alo ahi blo bhi (extend_left a b junk alo blo besti bestj bestsize).
Proof.
  revert bestj bestsize. induction besti as [|i' IH]; intros bestj bestsize Hr;
    simpl; [by destruct bestj|].
  destruct bestj as [|j']; [done|].
  destruct (_ && _) eqn:Hc; [|done].
  rewrite !andb_true_iff, !Nat.ltb_lt in Hc. apply IH.
  unfold in_range in *. simpl in *. lia.
Qed.

Lemma extend_right_range (a b : list A) (junk : bool) (ahi bhi besti bestj : nat)
  (fuel bestsize : nat) :
  besti + bestsize ≤ ahi → bestj + bestsize ≤ bhi →
  bestsize ≤ extend_right a b junk ahi bhi besti bestj fuel bestsize
  ∧ besti + extend_right a b junk ahi bhi besti bestj fuel bestsize ≤ ahi
  ∧ bestj + extend_right a b junk ahi bhi besti bestj fuel bestsize ≤ bhi.
Proof.
  revert bestsize. induction fuel as [|fuel IH]; intros bestsize Ha Hb; simpl; [lia|].
  destruct (_ && _) eqn:Hc; [|lia].
  rewrite !andb_true_iff, !Nat.ltb_lt in Hc.
  destruct (IH (S bestsize)) as (? & ? & ?); lia.
Qed.

Lemma find_longest_match_range (a b : list A) (b2j : gmap A (list nat))
  (alo ahi blo bhi : nat) :
  alo ≤ ahi → blo ≤ bhi →
  in_range alo ahi blo bhi (find_longest_match a b b2j alo ahi blo bhi).
Proof.
  intros Ha Hb. unfold find_longest_match.
  pose proof (scan_rows_range a b2j alo ahi blo bhi (ahi - alo) alo ∅ (alo, blo, 0))
    as Hscan.
  destruct (scan_rows a b2j blo bhi _ ∅ (alo, blo, 0)) as [[i0 j0] k0].
  assert (H0 : in_range alo ahi blo bhi (i0, j0, k0)).
  { apply Hscan; [lia|lia| |unfold in_range; simpl; lia].
    intros j k. by rewrite lookup_empty. }
  pose proof (extend_left_range a b false alo ahi blo bhi i0 j0 k0 H0) as H1.
  destruct (extend_left a b false alo blo i0 j0 k0) as [[i1 j1] k1].
  destruct (extend_right_range a b false ahi bhi i1 j1 (ahi - (i1 + k1)) k1)
    as (Hk & Hi2 & Hj2); [unfold in_range in H1; simpl in H1; lia..|].
  set (k2 := extend_right a b false ahi bhi i1 j1 (ahi - (i1 + k1)) k1) in *.
  assert (H2 : in_range alo ahi blo bhi (i1, j1, k2)).
  { unfold in_range in *. simpl in *. lia. }
  pose proof (extend_left_range a b true alo ahi blo bhi i1 j1 k2 H2) as H3.
  destruct (extend_left a b true alo blo i1 j1 k2) as [[i3 j3] k3].
  destruct (extend_right_range a b true ahi bhi i3 j3 (ahi - (i3 + k3)) k3)
    as (Hk4 & Hi4 & Hj4); [unfold in_range in H3; simpl in H3; lia..|].
  unfold in_range in *. simpl in *. lia.
Qed.

(** *** The loop over the queue ends, and the blocks fit in both sequences *)

Lemma match_queue_sound (a b : list A) (b2j : gmap A (list nat)) (fuel : nat)
  (queue : list (nat * nat * nat * nat)) (blocks : list block) :
  Forall window_ok queue → turns queue ≤ fuel →
  ∃ res, match_queue a b b2j fuel queue blocks = Some res
         ∧ sum_sizes res ≤ sum_sizes blocks + room_a queue
         ∧ sum_sizes res ≤ sum_sizes blocks + room_b queue.
Proof.
  revert queue blocks. induction fuel as [|fuel IH]; intros queue blocks Hok Hfuel.
  - destruct queue as [|[[[alo ahi] blo] bhi] queue]; simpl in *; [|lia].
    exists blocks. split; [done|lia].
  - destruct queue as [|[[[alo ahi] blo] bhi] queue]; simpl in *.
    { exists blocks. split; [done|lia]. }
    apply Forall_cons in Hok as [[Ha Hb] Hok]. simpl in Ha, Hb.
    pose proof (find_longest_match_range a b b2j alo ahi blo bhi Ha Hb) as Hr.
    destruct (find_longest_match a b b2j alo ahi blo bhi) as [[i j] k].
    unfold in_range in Hr. simpl in Hr.
    destruct (k =? 0) eqn:Hk.
    { destruct (IH queue blocks Hok) as (res & -> & ? & ?); [lia|].
      exists res. split; [done|lia]. }
    apply Nat.eqb_neq in Hk.
    destruct ((alo <? i) && (blo <? j)) eqn:Hleft;
      destruct ((i + k <? ahi) && (j + k <? bhi)) eqn:Hright;
      rewrite ?andb_true_iff, ?Nat.ltb_lt in Hleft;
      rewrite ?andb_true_iff, ?Nat.ltb_lt in Hright;
      match goal with |- context [match_queue a b b2j fuel ?q ?bl] =>
        destruct (IH q bl) as (res & -> & Hra & Hrb)
      end;
      repeat (apply Forall_cons; split); try done;
      try (unfold window_ok; simpl; lia);
      try (simpl; lia);
      try (exists res; split; [done|]; rewrite sum_sizes_app in Hra, Hrb;
           simpl in *; lia).
Qed.

(** The loop of [get_matching_blocks] always ends within the turns it is
    given. *)
Lemma match_queue_terminates (a b : list A) :
  ∃ matching_blocks,
    match_queue a b (chain_b b) (2 * length a + 1)
      [(0, length a, 0, length b)] [] = Some matching_blocks
    ∧ get_matching_blocks a b = finish_blocks (length a) (length b) matching_blocks
    ∧ sum_sizes matching_blocks ≤ length a
    ∧ sum_sizes matching_blocks ≤ length b.
Proof.
  destruct (match_queue_sound a b (chain_b b) (2 * length a + 1)
              [(0, length a, 0, length b)] []) as (res & Hres & Ha & Hb).
  - apply Forall_cons. split; [|done]. unfold window_ok. simpl. lia.
  - simpl. lia.
  - exists res. split; [done|]. split.
    + unfold get_matching_blocks. by rewrite Hres.
    + simpl in Ha, Hb. lia.
Qed.

Lemma finish_blocks_sum (la lb : nat) (matching_blocks : list block) :
  sum_sizes (finish_blocks la lb matching_blocks) = sum_sizes matching_blocks.
Proof.
  unfold finish_blocks.
  pose proof (collapse_adjacent_sum (merge_sort block_le matching_blocks) (0, 0, 0) [])
    as Hsum.
  destruct (collapse_adjacent _ _ _) as [non_adjacent [[i1 j1] k1]].
  simpl in Hsum.
  rewrite (sum_sizes_perm (merge_sort block_le matching_blocks) matching_blocks)
    in Hsum by apply merge_sort_Permutation.
  rewrite sum_sizes_app. simpl.
  destruct (k1 =? 0) eqn:Hk; [apply Nat.eqb_eq in Hk; lia|].
  rewrite sum_sizes_app. simpl. lia.
Qed.

Lemma get_matching_blocks_sum (a b : list A) :
  sum_sizes (get_matching_blocks a b) ≤ length a
  ∧ sum_sizes (get_matching_blocks a b) ≤ length b.
Proof.
  destruct (match_queue_terminates a b) as (mb & _ & -> & Ha & Hb).
  by rewrite finish_blocks_sum.
Qed.

Lemma ratio_bounds (a b : list A) : (0 <= ratio a b <= 1)%Q.
Proof.
  unfold ratio. apply calculate_ratio_bounds.
  destruct (get_matching_blocks_sum a b). lia.
Qed.

(** *** Sequences with no element in common *)

Lemma b2j_get_disjoint (a b : list A) (i : nat) :
  (∀ x, x ∈ a → x ∉ b) → b2j_get a (chain_b b) i = [].
Proof.
  intros Hdis. destruct (b2j_get a (chain_b b) i) as [|j js] eqn:Hjs; [done|].
  destruct (b2j_get_chain_b a b i j) as (x & Ha & Hb); [rewrite Hjs; by left|].
  destruct (Hdis x); by eapply list_elem_of_lookup_2.
Qed.

Lemma scan_rows_no_candidates (a : list A) (b2j : gmap A (list nat))
  (blo bhi : nat) (rows : list nat) (j2len : gmap nat nat) (best : block) :
  (∀ i, b2j_get a b2j i = []) →
  scan_rows a b2j blo bhi rows j2len best = best.
Proof.
  intros Hno. revert j2len. induction rows as [|i rows IH]; intros j2len; simpl; [done|].
  rewrite Hno. simpl. apply IH.
Qed.

Lemma extend_left_no_match (a b : list A) (junk : bool) (alo blo : nat)
  (besti bestj bestsize : nat) :
  (∀ i j, elt_eqb (a !! i) (b !! j) = false) →
  extend_left a b junk alo blo besti bestj bestsize = (besti, bestj, bestsize).
Proof.
  intros Hno. destruct besti as [|i']; simpl; [by destruct bestj|].
  destruct bestj as [|j']; [done|]. by rewrite Hno, andb_false_r.
Qed.

Lemma extend_right_no_match (a b : list A) (junk : bool) (ahi bhi besti bestj : nat)
  (fuel bestsize : nat) :
  (∀ i j, elt_eqb (a !! i) (b !! j) = false) →
  extend_right a b junk ahi bhi besti bestj fuel bestsize = bestsize.
Proof.
  intros Hno. destruct fuel as [|fuel]; simpl; [done|]. by rewrite Hno, andb_false_r.
Qed.

Lemma elt_eqb_disjoint (a b : list A) (i j : nat) :
  (∀ x, x ∈ a → x ∉ b) → elt_eqb (a !! i) (b !! j) = false.
Proof.
  intros Hdis. unfold elt_eqb.
  destruct (a !! i) as [u|] eqn:Ha; [|done]. destruct (b !! j) as [v|] eqn:Hb; [|done].
  apply bool_decide_eq_false. intros ->.
  destruct (Hdis v); by eapply list_elem_of_lookup_2.
Qed.

Lemma find_longest_match_disjoint (a b : list A) (alo ahi blo bhi : nat) :
  (∀ x, x ∈ a → x ∉ b) →
  find_longest_match a b (chain_b b) alo ahi blo bhi = (alo, blo, 0).
Proof.
  intros Hdis. unfold find_longest_match.
  rewrite scan_rows_no_candidates by (intros i; by apply b2j_get_disjoint).
  rewrite extend_left_no_match by (intros; by apply elt_eqb_disjoint).
  rewrite extend_right_no_match by (intros; by apply elt_eqb_disjoint).
  rewrite extend_left_no_match by (intros; by apply elt_eqb_disjoint).
  by rewrite extend_right_no_match by (intros; by apply elt_eqb_disjoint).
Qed.

Lemma match_queue_nil (a b : list A) (b2j : gmap A (list nat)) (fuel : nat)
  (blocks : list block) :
  match_queue a b b2j fuel [] blocks = Some blocks.
Proof. by destruct fuel. Qed.

Lemma ratio_disjoint (a b : list A) :
  (∀ x, x ∈ a → x ∉ b) → length a + length b ≠ 0 → (ratio a b == 0)%Q.
Proof.
  intros Hdis Hlen. unfold ratio.
  assert (Hmb : get_matching_blocks a b = finish_blocks (length a) (length b) []).
  { unfold get_matching_blocks. replace (2 * length a + 1) with (S (2 * length a)) by lia.
    cbn [match_queue]. rewrite find_longest_match_disjoint by done.
    change (0 =? 0) with true. cbv iota. by rewrite match_queue_nil. }
  rewrite Hmb, finish_blocks_sum. by apply calculate_ratio_zero.
Qed.

(** *** A sequence compared with itself *)

Section Identical.
Variable a : list A.

Abbreviation row_js i := (b2j_get a (chain_b a) i).

Lemma run_unfold (i : nat) :
  run a i = match row_js i with [] => 0 | _ => S (run_before a i) end.
Proof. by destruct i. Qed.

Lemma row_js_spec (i j : nat) :
  j ∈ row_js i →
  i ∈ row_js i ∧ row_js j = row_js i ∧ j < length a ∧ StronglySorted lt (row_js i).
Proof.
  unfold row_js, b2j_get. destruct (a !! i) as [x|] eqn:Hi; [|by intros ?%elem_of_nil].
  destruct (chain_b a !! x) as [js|] eqn:Hjs; simpl; [|by intros ?%elem_of_nil].
  destruct (chain_b_lookup a x js Hjs) as [-> _].
  intros [_ Hj]%elem_of_positions. rewrite Nat.sub_0_r in Hj.
  split; [|split; [|split]].
  - apply elem_of_positions. split; [lia|]. by rewrite Nat.sub_0_r.
  - by rewrite Hj, Hjs.
  - by eapply lookup_lt_Some.
  - apply positions_sorted.
Qed.

Lemma scan_row_identical (i : nat) (j2len : gmap nat nat) (js : list nat)
  (newj2len : gmap nat nat) (best : block) :
  (∀ j k, j2len !! j = Some k → k ≤ run_before a i ∧ k ≤ run a j) →
  j2lenget j2len i = run_before a i →
  (∀ j, j ∈ js → row_js j ≠ [] ∧ j < length a) →
  row_js i ≠ [] →
  StronglySorted lt js →
  scan_inv a i js newj2len best →
  scan_inv a i [] (scan_row j2len i 0 (length a) js newj2len best).1
    (scan_row j2len i 0 (length a) js newj2len best).2.
Proof.
  intros Hprev Hdiag Hjs Hi. revert newj2len best.
  induction js as [|j js IH]; intros newj2len best Hsorted Hinv; simpl; [done|].
  destruct (Hjs j) as [Hjne Hjlt]; [by left|].
  apply StronglySorted_inv in Hsorted as [Hsorted Hall].
  rewrite Forall_forall in Hall.
  replace (length a <=? j) with false by (symmetry; apply Nat.leb_gt; lia).
  assert (Hget : j2lenget j2len j ≤ run_before a i ∧ j2lenget j2len j ≤ run_before a j).
  { destruct j as [|j']; simpl; [lia|].
    destruct (j2len !! j') as [k'|] eqn:Hk'; simpl; [|lia]. by apply Hprev. }
  assert (Hri : run a i = S (run_before a i)).
  { rewrite run_unfold. by destruct (row_js i). }
  assert (Hrj : run a j = S (run_before a j)).
  { rewrite run_unfold. by destruct (row_js j). }
  destruct Hinv as (Hnew & Hseen & Hdiagonal & Hdom).
  apply IH; [intros j' Hj'; apply Hjs; by right|done|].
  assert (Hentries : ∀ j' k', <[j:=j2lenget j2len j + 1]> newj2len !! j' = Some k' →
            k' ≤ run a i ∧ k' ≤ run a j').
  { intros j' k'. rewrite lookup_insert. case_decide as Hjj.
    - intros [= <-]. subst j'. lia.
    - apply Hnew. }
  destruct (decide (j = i)) as [->|Hji].
  - (* the diagonal *)
    assert (Hk : j2lenget j2len i + 1 = run a i) by lia.
    rewrite Hk. split; [|split; [|split]].
    + intros j' k' Hl. apply Hentries. by rewrite Hk.
    + right. rewrite lookup_insert_eq. split; [done|].
      destruct (best.2 <? run a i) eqn:Hlt; simpl; [lia|].
      apply Nat.ltb_ge in Hlt. lia.
    + by destruct (best.2 <? run a i).
    + intros j' Hj'. specialize (Hdom j' Hj').
      destruct (best.2 <? run a i) eqn:Hlt; simpl; [|done].
      apply Nat.ltb_lt in Hlt. lia.
  - (* off the diagonal: no new best *)
    assert (Hk : j2lenget j2len j + 1 ≤ best.2).
    { destruct (decide (j < i)) as [Hlt|Hge].
      - specialize (Hdom j Hlt). lia.
      - destruct Hseen as [Hin|[_ Hrun]]; [|lia].
        apply elem_of_cons in Hin as [->|Hin]; [done|].
        specialize (Hall i Hin). lia. }
    replace (best.2 <? j2lenget j2len j + 1) with false
      by (symmetry; apply Nat.ltb_ge; lia).
    split; [done|]. split; [|done].
    destruct Hseen as [Hin|[Hl Hrun]].
    + left. by apply elem_of_cons in Hin as [->|Hin].
    + right. by rewrite lookup_insert_ne.
Qed.

Lemma scan_rows_identical (m i : nat) (j2len : gmap nat nat) (best : block) :
  i + m ≤ length a → row_inv a i j2len best →
  (scan_rows a (chain_b a) 0 (length a) (seq i m) j2len best).1.1
  = (scan_rows a (chain_b a) 0 (length a) (seq i m) j2len best).1.2.
Proof.
  revert i j2len best. induction m as [|m IH]; intros i j2len best Hm Hinv; simpl.
  { by destruct Hinv as (_ & _ & ? & _). }
  fold (b2j_get a (chain_b a) i). fold (row_js i).
  destruct Hinv as (Hprev & Hdiag & Hdiagonal & Hdom).
  destruct (row_js i) as [|j0 js0] eqn:Hrow.
  - (* no candidate in this row *)
    simpl. apply IH; [lia|]. split; [|split; [|split]].
    + intros j k. by rewrite lookup_empty.
    + simpl. by rewrite run_unfold, Hrow.
    + done.
    + intros j Hj. destruct (decide (j = i)) as [->|]; [|apply Hdom; lia].
      rewrite run_unfold, Hrow. lia.
  - rewrite <- Hrow.
    pose proof (scan_row_identical i j2len (row_js i) ∅ best Hprev Hdiag) as Hscan.
    destruct (scan_row j2len i 0 (length a) (row_js i) ∅ best)
      as [newj2len best'] eqn:Hres.
    simpl in Hscan. destruct Hscan as (Hnew & Hseen & Hdiagonal' & Hdom').
    + intros j Hj. destruct (row_js_spec i j Hj) as (_ & Heq & Hlt & _).
      split; [|done]. rewrite Heq, Hrow. done.
    + by rewrite Hrow.
    + destruct (row_js_spec i j0) as (_ & _ & _ & Hs); [rewrite Hrow; by left|done].
    + split; [|split; [|split]]; [|left|done|done].
      * intros j k. by rewrite lookup_empty.
      * destruct (row_js_spec i j0) as (Hi & _); [rewrite Hrow; by left|done].
    + destruct Hseen as [?%elem_of_nil|[Hl Hrun]]; [done|].
      apply IH; [lia|]. split; [|split; [|split]].
      * intros j k Hk. by apply Hnew.
      * simpl. by rewrite Hl.
      * done.
      * intros j Hj. destruct (decide (j = i)) as [->|]; [done|apply Hdom'; lia].
Qed.

Lemma isbjunk_false (y : option A) : isbjunk y = false.
Proof.
  destruct y as [y|]; [|done]. apply bool_decide_eq_false.
  unfold bjunk. apply not_elem_of_empty.
Qed.

Lemma elt_eqb_refl (i : nat) : i < length a → elt_eqb (a !! i) (a !! i) = true.
Proof.
  intros Hi. destruct (lookup_lt_is_Some_2 a i Hi) as [x Hx].
  rewrite Hx. simpl. by apply bool_decide_eq_true.
Qed.

Lemma extend_left_diagonal (d k : nat) :
  d ≤ length a → extend_left a a false 0 0 d d k = (0, 0, k + d).
Proof.
  revert k. induction d as [|d IH]; intros k Hd; simpl; [f_equal; lia|].
  rewrite isbjunk_false, elt_eqb_refl by lia. simpl.
  rewrite IH by lia. f_equal. lia.
Qed.

Lemma extend_right_diagonal (fuel k : nat) :
  k + fuel = length a →
  extend_right a a false (length a) (length a) 0 0 fuel k = length a.
Proof.
  revert k. induction fuel as [|fuel IH]; intros k Hk; simpl; [lia|].
  replace (k <? length a) with true by (symmetry; apply Nat.ltb_lt; lia).
  rewrite isbjunk_false, elt_eqb_refl by lia. simpl. apply IH. lia.
Qed.

Lemma find_longest_match_identical :
  find_longest_match a a (chain_b a) 0 (length a) 0 (length a) = (0, 0, length a).
Proof.
  unfold find_longest_match. rewrite Nat.sub_0_r.
  pose proof (scan_rows_identical (length a) 0 ∅ (0, 0, 0)) as Hdiag.
  pose proof (scan_rows_range a (chain_b a) 0 (length a) 0 (length a)
                (length a) 0 ∅ (0, 0, 0)) as Hrange.
  destruct (scan_rows a (chain_b a) 0 (length a) (seq 0 (length a)) ∅ (0, 0, 0))
    as [[i0 j0] k0].
  simpl in Hdiag. rewrite <- Hdiag.
  2:{ lia. }
  2:{ split; [|split; [|split]]; [|done|done|intros j Hj; lia].
      intros j k. by rewrite lookup_empty. }
  destruct Hrange as (_ & _ & Hi0 & _); [lia|lia| |unfold in_range; simpl; lia|].
  { intros j k. by rewrite lookup_empty. }
  simpl in Hi0. rewrite extend_left_diagonal by lia.
  rewrite Nat.add_0_l, extend_right_diagonal by lia.
  simpl. by rewrite Nat.sub_diag.
Qed.

Lemma ratio_identical : (ratio a a == 1)%Q.
Proof.
  unfold ratio.
  assert (Hsum : sum_sizes (get_matching_blocks a a) = length a).
  { unfold get_matching_blocks.
    replace (2 * length a + 1) with (S (2 * length a)) by lia.
    cbn [match_queue]. rewrite find_longest_match_identical.
    destruct (length a =? 0) eqn:Hn.
    - rewrite match_queue_nil, finish_blocks_sum. apply Nat.eqb_eq in Hn. by rewrite Hn.
    - rewrite Nat.ltb_irrefl. simpl.
      replace (length a <? length a) with false by (symmetry; apply Nat.ltb_irrefl).
      simpl. rewrite match_queue_nil, finish_blocks_sum. simpl. lia. }
  rewrite Hsum. apply calculate_ratio_full.
Qed.

End Identical.

End SequenceMatcherFacts.

(** ** The ratio on strings *)

Lemma chars_nonempty (s : string) : s ≠ "" → length (chars s) ≠ 0.
Proof. by destruct s. Qed.

(** For two texts of up to 300 characters together, the test of
    [is_duplicate] on the exact ratio is the test Python makes on floats. *)
Lemma near_duplicate_float (txt existing : string) :
  length (chars txt) + length (chars existing) ≤ 300 →
  near_duplicate txt existing
  = above_threshold_float
      (sum_sizes (get_matching_blocks (chars txt) (chars existing)))
      (length (chars txt) + length (chars existing)).
Proof.
  intros Hlen. unfold near_duplicate, str_ratio, ratio. fold (chars txt) (chars existing).
  symmetry. apply float_threshold_agrees; [done|].
  destruct (get_matching_blocks_sum (chars txt) (chars existing)). lia.
Qed.

(** C3, amended. For all strings: the ratio of a string with
    itself is 1; every ratio lies between 0 and 1; the ratio of two strings
    that share no character and are not both empty is 0.  (The ratio is
    not symmetric, and the ratio of the empty string with itself is 1.) *)
Theorem str_ratio_properties (s t : string) :
  (str_ratio s s == 1)%Q
  ∧ (0 <= str_ratio s t <= 1)%Q
  ∧ (no_common_char s t → s ≠ "" ∨ t ≠ "" → (str_ratio s t == 0)%Q).
Proof.
  split; [apply ratio_identical|]. split; [apply ratio_bounds|].
  intros Hdis Hne. apply ratio_disjoint; [exact Hdis|].
  fold (chars s) (chars t).
  destruct Hne as [Hs|Ht]; [apply chars_nonempty in Hs|apply chars_nonempty in Ht]; lia.
Qed.

(** C3, counterexample: the ratio depends on the order of its
    arguments (1/4 for tide against diet, 1/2 for diet against tide), and
    the empty string, which shares no character with itself, has ratio 1
    with itself. *)
Lemma str_ratio_not_symmetric :
  (str_ratio "tide" "diet" == 1 # 4)%Q
  ∧ (str_ratio "diet" "tide" == 1 # 2)%Q
  ∧ ¬ (str_ratio "tide" "diet" == str_ratio "diet" "tide")%Q
  ∧ no_common_char "" ""
  ∧ (str_ratio "" "" == 1)%Q.
Proof.
  split; [by vm_compute|]. split; [by vm_compute|]. split; [|split].
  - intros Heq. vm_compute in Heq. discriminate.
  - intros c Hc. by apply elem_of_nil in Hc.
  - by vm_compute.
Qed.

Lemma str_ratio_properties_witness : (str_ratio "abc" "xyz" == 0)%Q.
Proof.
  apply (proj2 (proj2 (str_ratio_properties "abc" "xyz"))).
  - intros c Hc Ht. unfold chars in Hc, Ht. simpl in Hc, Ht.
    repeat (apply elem_of_cons in Hc as [->|Hc];
            [repeat (apply elem_of_cons in Ht as [Ht|Ht]; [discriminate Ht|]);
             by apply elem_of_nil in Ht|]).
    by apply elem_of_nil in Hc.
  - by left.
Defined.

(** ** De-duplication and the pipeline *)

Lemma select_text_by_hash_None (db : list row) (h : string) :
  select_text_by_hash db h = None ↔ h ∉ map row_hash db.
Proof.
  unfold select_text_by_hash. induction db as [|r db IH]; simpl.
  - split; [intros _; apply not_elem_of_nil|done].
  - rewrite filter_cons, not_elem_of_cons. destruct (decide (row_hash r = h)) as [Heq|Hne].
    + simpl. split; [done|]. intros [Hne _]. by destruct Hne.
    + rewrite IH. split; [by intros ?; split|by intros [_ ?]].
Qed.

Lemma near_duplicate_spec (txt existing : string) :
  near_duplicate txt existing = true ↔ (9 # 10 < str_ratio txt existing)%Q.
Proof.
  unfold near_duplicate. rewrite negb_true_iff, <- not_true_iff_false, Qle_bool_iff.
  split; [apply Qnot_le_lt|apply Qlt_not_le].
Qed.

Section PipelineFacts.
Variable sha256_hexdigest : string → string.

Abbreviation _hash := (_hash sha256_hexdigest).
Abbreviation is_duplicate := (is_duplicate sha256_hexdigest).
Abbreviation validate_and_store := (validate_and_store sha256_hexdigest).
Abbreviation process_event := (process_event sha256_hexdigest).
Abbreviation run_op := (run_op sha256_hexdigest).
Abbreviation run_ops := (run_ops sha256_hexdigest).

Lemma is_duplicate_spec (db : list row) (txt : string) :
  is_duplicate db txt = true ↔
  exact_duplicate (_hash txt) db ∨ near_duplicate_in txt db.
Proof.
  unfold is_duplicate, exact_duplicate, near_duplicate_in.
  destruct (select_text_by_hash db (_hash txt)) as [t|] eqn:Hsel.
  - split; [intros _; left|done].
    destruct (decide (_hash txt ∈ map row_hash db)) as [?|Hno]; [done|].
    apply select_text_by_hash_None in Hno. congruence.
  - apply select_text_by_hash_None in Hsel. rewrite existsb_exists. split.
    + intros (existing & Hin & Hnear). right. exists existing.
      split; [by apply list_elem_of_In|by apply near_duplicate_spec].
    + intros [?|(existing & Hin & Hnear)]; [done|]. exists existing.
      split; [by apply list_elem_of_In|by apply near_duplicate_spec].
Qed.

Lemma validate_and_store_unfold (db : list row) (r : event) :
  validate_and_store db r =
  if (String.length (text r) <? 5) || is_duplicate db (text r)
  then (Returned false, db)
  else (Returned true, db ++ [row_of (_hash (text r)) db r]).
Proof.
  unfold validate_and_store.
  destruct (String.length (text r) <? 5); simpl; [done|].
  destruct (is_duplicate db (text r)) eqn:Hdup; [done|].
  unfold insert_event. rewrite bool_decide_eq_false_2; [done|].
  intros Hin. apply not_true_iff_false in Hdup. apply Hdup, is_duplicate_spec.
  by left.
Qed.

Lemma validate_and_store_rejects (db : list row) (r : event) :
  too_short (text r) ∨ exact_duplicate (_hash (text r)) db
    ∨ near_duplicate_in (text r) db ↔
  (String.length (text r) <? 5) || is_duplicate db (text r) = true.
Proof.
  rewrite orb_true_iff, Nat.ltb_lt, is_duplicate_spec. unfold too_short. tauto.
Qed.


Lemma validate_and_store_db (db : list row) (r : event) :
  (validate_and_store db r).2 = db
  ∨ ((validate_and_store db r).2 = db ++ [row_of (_hash (text r)) db r]
     ∧ _hash (text r) ∉ map row_hash db).
Proof.
  rewrite validate_and_store_unfold.
  destruct (String.length (text r) <? 5); simpl; [by left|].
  destruct (is_duplicate db (text r)) eqn:Hdup; [by left|]. right. split; [done|].
  intros Hin. apply not_true_iff_false in Hdup. apply Hdup, is_duplicate_spec.
  by left.
Qed.

Lemma process_event_unfold (db : list row) (now src txt : string)
  (kwargs : list (string * json)) :
  let ev := normalize (ingest now src txt kwargs) in
  process_event db now src txt kwargs =
  if (String.length (text ev) <? 5) || is_duplicate db (text ev)
  then (Returned {| status := "rejected"; reason := Some "duplicate_or_invalid";
                    result_event := None |}, db)
  else (Returned {| status := "processed"; reason := None;
                    result_event := Some (enrich (classify ev)) |},
        db ++ [row_of (_hash (text ev)) db ev]).
Proof.
  intros ev. unfold process_event. fold ev. rewrite validate_and_store_unfold.
  by destruct ((String.length (text ev) <? 5) || is_duplicate db (text ev)).
Qed.

Lemma process_event_db (db : list row) (now src txt : string)
  (kwargs : list (string * json)) :
  (process_event db now src txt kwargs).2 =
  (validate_and_store db (normalize (ingest now src txt kwargs))).2.
Proof.
  unfold process_event.
  by destruct (validate_and_store db (normalize (ingest now src txt kwargs)))
    as [[[]|] ?].
Qed.

Lemma run_op_db (db : list row) (op : pipeline_op) :
  run_op db op = db
  ∨ ∃ x, run_op db op = db ++ [x] ∧ row_hash x ∉ map row_hash db.
Proof.
  destruct op as [now src txt kwargs| | |record]; [|by left|by left|].
  - unfold run_op. rewrite process_event_db.
    destruct (validate_and_store_db db (normalize (ingest now src txt kwargs)))
      as [->|[-> Hnew]]; [by left|]. right. by eexists.
  - unfold run_op.
    destruct (validate_and_store_db db record) as [->|[-> Hnew]]; [by left|].
    right. by eexists.
Qed.

(** C5. Whatever operations run (processing an event, the analytics call,
    the creation of the table, a direct call of [validate_and_store]), in
    whatever order, the table the sequence started from
    is a prefix of the table it ends with, so no stored event is ever
    removed or changed, and if no two rows shared a fingerprint before,
    none do after. *)
Theorem store_grows_and_stays_unique (db : list row) (ops : list pipeline_op) :
  db `prefix_of` run_ops db ops
  ∧ (unique_fingerprints db → unique_fingerprints (run_ops db ops)).
Proof.
  revert db. induction ops as [|op ops IH]; intros db; [done|].
  unfold run_ops in *. cbn [foldl]. destruct (IH (run_op db op)) as [IHp IHu].
  destruct (run_op_db db op) as [Heq|(x & Heq & Hnew)]; rewrite Heq in *.
  - done.
  - split.
    + etrans; [|exact IHp]. by apply prefix_app_r.
    + intros Hu. apply IHu. unfold unique_fingerprints in *.
      rewrite map_app. simpl. apply NoDup_app. split; [done|]. split.
      * intros h Hin ->%list_elem_of_singleton. done.
      * apply NoDup_singleton.
Qed.


End PipelineFacts.

(** ** The HTTP endpoint *)

Section EndpointFacts.
Variable sha256_hexdigest : string → string.
Variable pg_text : json → string + Api.refusal.

Abbreviation make_hash := (Api.make_hash sha256_hexdigest).
Abbreviation check_duplicate := (Api.check_duplicate sha256_hexdigest).
Abbreviation adapt_category := (Api.adapt_category pg_text).
Abbreviation save_event := (Api.save_event pg_text).
Abbreviation api_ingest := (Api.ingest sha256_hexdigest pg_text).


(** [save_event] on a hash that is not in the table: the row is stored
    under the next id, or a parameter is refused and nothing changes. *)
Lemma save_event_new (db : Api.database) (src txt recv h : string)
  (m : option (list (string * json))) (cat prov : json) :
  h ∉ map Api.hash (Api.events db) →
  (∃ c, Api.has_nul src = false ∧ Api.has_nul txt = false
        ∧ adapt_category cat = Returned c
        ∧ Api.meta_has_nul m = false ∧ Api.json_has_nul prov = false
        ∧ save_event db src txt recv h m cat prov =
          (Returned (S (Api.events_id_seq db)),
           {| Api.events := Api.events db ++
                [Api.mk_api_row (S (Api.events_id_seq db)) src txt recv h m c prov];
              Api.events_id_seq := S (Api.events_id_seq db) |}))
  ∨ (∃ e, e ≠ IntegrityError
          ∧ (((Api.has_nul src = true ∨ Api.has_nul txt = true) ∧ e = ValueError)
             ∨ adapt_category cat = Raised e
             ∨ ((Api.meta_has_nul m = true ∨ Api.json_has_nul prov = true)
                ∧ e = DataError))
          ∧ save_event db src txt recv h m cat prov = (Raised e, db)).
Proof.
  intros Hnew. unfold Api.save_event.
  destruct (Api.has_nul src) eqn:Hsrc; simpl.
  { right. exists ValueError. split; [done|]. split; [left; split; [by left|done]|done]. }
  destruct (Api.has_nul txt) eqn:Htxt; simpl.
  { right. exists ValueError. split; [done|]. split; [left; split; [by right|done]|done]. }
  destruct (adapt_category cat) as [c|e] eqn:Hcat.
  - destruct (Api.meta_has_nul m) eqn:Hm; simpl.
    { right. exists DataError. split; [done|].
      split; [right; right; split; [by left|done]|done]. }
    destruct (Api.json_has_nul prov) eqn:Hprov; simpl.
    { right. exists DataError. split; [done|].
      split; [right; right; split; [by right|done]|done]. }
    left. exists c. rewrite bool_decide_eq_false_2 by done. done.
  - right. exists e. split; [|split; [by right; left|done]].
    unfold Api.adapt_category in Hcat.
    destruct cat as [|b|q|s|items|fields]; try done.
    + by destruct (pg_text (JBool b)) as [?|[]]; simplify_eq.
    + by destruct (pg_text (JNum q)) as [?|[]]; simplify_eq.
    + by destruct (Api.has_nul s); simplify_eq.
    + by destruct (pg_text (JArr items)) as [?|[]]; simplify_eq.
    + by simplify_eq.
Qed.


(** The five ways through [ingest]. *)
Lemma ingest_cases (db : Api.database) (payload : Api.IngestPayload)
  (client now_prov now_record : string) (reply : Api.oracle_reply) :
  let t := strip (Api.payload_text payload) in
  let ml_out := match reply with
                | Api.OracleJson v => v
                | _ => Api.fallback_ml_out
                end in
  (String.length t < 5
   ∧ api_ingest db payload client now_prov now_record reply
     = (Raised (HTTPException 400 "Text too short"), db))
  ∨ (5 ≤ String.length t ∧ make_hash t ∈ map Api.hash (Api.events db)
     ∧ api_ingest db payload client now_prov now_record reply
       = (Returned (Api.IngestRejected "duplicate"), db))
  ∨ (5 ≤ String.length t ∧ (make_hash t ∉ map Api.hash (Api.events db))
     ∧ Api.dict_get ml_out "category" = None
     ∧ api_ingest db payload client now_prov now_record reply
       = (Raised AttributeError, db))
  ∨ (5 ≤ String.length t ∧ (make_hash t ∉ map Api.hash (Api.events db))
     ∧ ∃ cat e, Api.dict_get ml_out "category" = Some cat
       ∧ e ≠ IntegrityError
       ∧ (((Api.has_nul (Api.payload_source payload) = true ∨ Api.has_nul t = true)
           ∧ e = ValueError)
          ∨ adapt_category cat = Raised e
          ∨ ((Api.meta_has_nul (Api.payload_meta payload) = true
              ∨ Api.json_has_nul (provenance_of client now_prov ml_out) = true)
             ∧ e = DataError))
       ∧ api_ingest db payload client now_prov now_record reply = (Raised e, db))
  ∨ (5 ≤ String.length t ∧ (make_hash t ∉ map Api.hash (Api.events db))
     ∧ ∃ cat c, Api.dict_get ml_out "category" = Some cat
       ∧ adapt_category cat = Returned c
       ∧ Api.has_nul (Api.payload_source payload) = false ∧ Api.has_nul t = false
       ∧ Api.meta_has_nul (Api.payload_meta payload) = false
       ∧ Api.json_has_nul (provenance_of client now_prov ml_out) = false
       ∧ api_ingest db payload client now_prov now_record reply
         = (Returned (Api.IngestAccepted (S (Api.events_id_seq db)) cat),
            {| Api.events := Api.events db ++
                 [Api.mk_api_row (S (Api.events_id_seq db))
                    (Api.payload_source payload) t now_record (make_hash t)
                    (Api.payload_meta payload) c
                    (provenance_of client now_prov ml_out)];
               Api.events_id_seq := S (Api.events_id_seq db) |})).
Proof.
  intros t ml_out. unfold Api.ingest. fold t. fold ml_out.
  fold (provenance_of client now_prov ml_out).
  destruct (String.length t <? 5) eqn:Hlen.
  { left. apply Nat.ltb_lt in Hlen. done. }
  apply Nat.ltb_ge in Hlen. right.
  unfold Api.check_duplicate.
  destruct (decide (make_hash t ∈ map Api.hash (Api.events db))) as [Hin|Hnew].
  { left. by rewrite bool_decide_eq_true_2. }
  right. rewrite bool_decide_eq_false_2 by done.
  destruct (Api.dict_get ml_out "category") as [cat|] eqn:Hget; [|by left].
  right.
  destruct (save_event_new db (Api.payload_source payload) t now_record (make_hash t)
              (Api.payload_meta payload) cat (provenance_of client now_prov ml_out) Hnew)
    as [(c & Hsrc & Htxt & Hcat & Hm & Hprov & ->)|(e & He & Hwhy & ->)].
  - right. split; [done|]. split; [done|]. by exists cat, c.
  - left. split; [done|]. split; [done|]. by exists cat, e.
Qed.


(** The same request with a NUL in its source or in its stripped text:
    psycopg2 refuses the string, the [ValueError] leaves [ingest], and
    nothing is stored. *)
Lemma ingest_nul_raises (db : Api.database) (payload : Api.IngestPayload)
  (client now_prov now_record : string) (reply : Api.oracle_reply) (cat : json) :
  5 ≤ String.length (strip (Api.payload_text payload)) →
  check_duplicate db (strip (Api.payload_text payload)) = false →
  Api.dict_get match reply with
               | Api.OracleJson v => v
               | _ => Api.fallback_ml_out
               end "category" = Some cat →
  Api.has_nul (Api.payload_source payload)
  || Api.has_nul (strip (Api.payload_text payload)) = true →
  api_ingest db payload client now_prov now_record reply = (Raised ValueError, db).
Proof.
  intros Hlen Hdup Hget Hnul. unfold Api.ingest.
  apply Nat.ltb_ge in Hlen. rewrite Hlen, Hdup, Hget.
  unfold Api.save_event. by rewrite Hnul.
Qed.

(** When the oracle's answer decodes to a JSON value that is no object
    (an array, a string, a number, [null]), [ml_out.get] raises: the
    AttributeError leaves [ingest] and the table is as it was. *)
Lemma ingest_oracle_not_object (db : Api.database) (payload : Api.IngestPayload)
  (client now_prov now_record : string) (v : json) :
  5 ≤ String.length (strip (Api.payload_text payload)) →
  check_duplicate db (strip (Api.payload_text payload)) = false →
  Api.dict_get v "category" = None →
  api_ingest db payload client now_prov now_record (Api.OracleJson v)
  = (Raised AttributeError, db).
Proof.
  intros Hlen Hdup Hget. unfold Api.ingest.
  apply Nat.ltb_ge in Hlen. by rewrite Hlen, Hdup, Hget.
Qed.


End EndpointFacts.


(** C7, at the failing input.  The oracle answers with the
    JSON array [[]]: the answer is decoded, [ml_out.get] is called on a
    list outside the [try], the AttributeError reaches the caller and nothing
    is stored. *)
Theorem ingest_oracle_array_raises (sha256_hexdigest : string → string)
  (pg_text : json → string + Api.refusal) :
  Api.ingest sha256_hexdigest pg_text {| Api.events := []; Api.events_id_seq := 0 |}
    (Api.mk_payload "OSINT" "Peaceful protest observed in Almaty" (Some []))
    "127.0.0.1" "2024-01-01T00:00:00" "2024-01-01T00:00:01"
    (Api.OracleJson (JArr []))
  = (Raised AttributeError, {| Api.events := []; Api.events_id_seq := 0 |}).
Proof. reflexivity. Qed.

(** The oracle answers with the JSON object [{}]: the event is stored with
    the category [None], not UNCLASSIFIED. *)
Lemma ingest_oracle_empty_object (sha256_hexdigest : string → string)
  (pg_text : json → string + Api.refusal) :
  ∃ stored,
    Api.ingest sha256_hexdigest pg_text {| Api.events := []; Api.events_id_seq := 0 |}
      (Api.mk_payload "OSINT" "Peaceful protest observed in Almaty" (Some []))
      "127.0.0.1" "2024-01-01T00:00:00" "2024-01-01T00:00:01"
      (Api.OracleJson (JObj []))
    = (Returned (Api.IngestAccepted 1 JNull),
       {| Api.events := [stored]; Api.events_id_seq := 1 |})
    ∧ Api.category stored = None.
Proof. eexists. split; reflexivity. Qed.

(** ** Texts, lowered and stripped *)

Lemma append_cons (c : ascii) (s t : string) :
  String.append (String c s) t = String c (String.append s t).
Proof. reflexivity. Qed.

Lemma append_nil_l (t : string) : String.append "" t = t.
Proof. reflexivity. Qed.

Lemma append_assoc (s t u : string) :
  String.append (String.append s t) u = String.append s (String.append t u).
Proof. induction s as [|c s IH]; [done|]. by rewrite !append_cons, IH. Qed.


Lemma normalize_text_strip (t : string) : normalize_text (strip t) = normalize_text t.
Proof. unfold normalize_text. by rewrite str_lower_strip, strip_idem. Qed.

Lemma text_normalize_ingest (now src txt : string) (kwargs : list (string * json)) :
  text (normalize (ingest now src txt kwargs)) = normalize_text txt.
Proof. simpl. apply normalize_text_strip. Qed.

Lemma str_lower_append (s t : string) :
  str_lower (String.append s t) = String.append (str_lower s) (str_lower t).
Proof.
  induction s as [|c s IH]; [done|].
  rewrite append_cons. simpl. by rewrite append_cons, IH.
Qed.

Lemma occurs_in_str_lower (w t : string) :
  occurs_in w t → occurs_in (str_lower w) (str_lower t).
Proof.
  intros (pre & post & ->). exists (str_lower pre), (str_lower post).
  by rewrite !str_lower_append.
Qed.

Lemma lstrip_suffix (s : string) : ∃ pre, s = String.append pre (lstrip s).
Proof.
  induction s as [|c s [pre IH]]; simpl; [by exists ""|].
  destruct (is_space c); [|by exists ""]. exists (String c pre).
  rewrite append_cons. congruence.
Qed.

Lemma rstrip_prefix (s : string) : ∃ post, s = String.append (rstrip s) post.
Proof.
  induction s as [|c s [post IH]]; simpl; [by exists ""|].
  destruct (rstrip s) as [|d r] eqn:Hr.
  - destruct (is_space c).
    + by exists (String c s).
    + exists post. rewrite append_cons. rewrite append_nil_l in *. congruence.
  - exists post. rewrite append_cons. congruence.
Qed.

(** What [strip] keeps is a part of what it was given. *)
Lemma occurs_in_strip (kw s : string) : occurs_in kw (strip s) → occurs_in kw s.
Proof.
  unfold strip. intros (pre & post & Hocc).
  destruct (lstrip_suffix s) as [l Hl]. destruct (rstrip_prefix (lstrip s)) as [r Hr].
  exists (String.append l pre), (String.append post r).
  rewrite Hl at 1. rewrite Hr at 1. rewrite Hocc. by rewrite !append_assoc.
Qed.

Lemma rstrip_cons (c : ascii) (s : string) :
  rstrip (String c s) =
  match rstrip s with
  | EmptyString => if is_space c then EmptyString else String c EmptyString
  | r => String c r
  end.
Proof. reflexivity. Qed.

Lemma rstrip_nonempty_append (kw post : string) :
  kw ≠ "" → rstrip kw = kw → rstrip (String.append kw post) = String.append kw (rstrip post).
Proof.
  induction kw as [|c kw IH]; [done|]. intros _ Hkw.
  rewrite !append_cons, rstrip_cons. rewrite rstrip_cons in Hkw.
  destruct kw as [|d kw].
  - rewrite !append_nil_l. simpl in Hkw.
    destruct (is_space c); [done|]. by destruct (rstrip post).
  - destruct (rstrip (String d kw)) as [|e r] eqn:Hr.
    + destruct (is_space c); simplify_eq.
    + assert (Hkw' : String e r = String d kw) by congruence. rewrite (IH ltac:(done) Hkw').
      by rewrite append_cons.
Qed.

Lemma occurs_in_lstrip_keep (kw s : string) :
  no_outer_space kw = true → occurs_in kw s → occurs_in kw (lstrip s).
Proof.
  intros Hkw. induction s as [|d s IH]; intros Hocc; simpl; [done|].
  destruct (is_space d) eqn:Hd; [|done]. apply IH.
  destruct Hocc as ([|p pre] & post & Heq).
  - destruct kw as [|c kw]; [done|]. rewrite append_nil_l, append_cons in Heq.
    injection Heq as -> _.
    unfold no_outer_space in Hkw. by rewrite Hd in Hkw.
  - rewrite append_cons in Heq. injection Heq as _ ->. by exists pre, post.
Qed.

Lemma occurs_in_rstrip_keep (kw s : string) :
  no_outer_space kw = true → occurs_in kw s → occurs_in kw (rstrip s).
Proof.
  intros Hkw.
  assert (Hne : kw ≠ "") by (by destruct kw).
  assert (Hr : rstrip kw = kw).
  { unfold no_outer_space in Hkw. apply andb_true_iff in Hkw as [_ Hkw].
    destruct (rstrip kw); [done|]. by apply String.eqb_eq in Hkw. }
  induction s as [|d s IH]; intros Hocc.
  - destruct Hocc as ([|p pre] & post & Heq); [|done].
    rewrite append_nil_l in Heq. by destruct kw.
  - destruct Hocc as ([|p pre] & post & Heq).
    + rewrite append_nil_l in Heq. rewrite Heq, rstrip_nonempty_append by done.
      by exists "", (rstrip post).
    + rewrite append_cons in Heq. injection Heq as <- Hs.
      destruct IH as (pre' & post' & Heq'); [by exists pre, post|].
      cbn [rstrip]. rewrite Heq'.
      destruct (String.append pre' (String.append kw post')) eqn:Happ.
      * destruct pre'; [by destruct kw|done].
      * rewrite <- Happ. exists (String d pre'), post'. by rewrite append_cons.
Qed.

Lemma occurs_in_strip_keep (kw s : string) :
  no_outer_space kw = true → occurs_in kw s → occurs_in kw (strip s).
Proof.
  intros Hkw Hocc. unfold strip.
  by apply occurs_in_rstrip_keep, occurs_in_lstrip_keep.
Qed.

(** ** What the table keeps *)

Section PipelineMore.
Variable sha256_hexdigest : string → string.

Abbreviation digest := sha256_hexdigest.
Abbreviation validate_and_store := (validate_and_store sha256_hexdigest).
Abbreviation process_event := (process_event sha256_hexdigest).
Abbreviation is_duplicate := (is_duplicate sha256_hexdigest).
Abbreviation run_op := (run_op sha256_hexdigest).
Abbreviation run_ops := (run_ops sha256_hexdigest).

Lemma validate_and_store_accepts (db : list row) (r : event) :
  (String.length (text r) <? 5) || is_duplicate db (text r) = false ↔
  accepted_by digest db r.
Proof.
  rewrite <- not_true_iff_false, <- validate_and_store_rejects. unfold accepted_by, _hash.
  split.
  - intros Hno. split; [|split].
    + destruct (decide (5 ≤ String.length (text r))); [done|].
      destruct Hno. left. unfold too_short. lia.
    + intros He. apply Hno. by right; left.
    + intros existing Hin. apply Qnot_lt_le. intros Hlt. apply Hno. right; right.
      by exists existing.
  - intros (Hlen & Hex & Hnear) [Hs|[He|(existing & Hin & Hlt)]].
    + unfold too_short in Hs. lia.
    + done.
    + apply Hnear in Hin. by apply Qlt_not_le in Hlt.
Qed.

Lemma run_op_cases (db : list row) (op : pipeline_op) :
  run_op db op = db
  ∨ ∃ r, run_op db op = db ++ [row_of (digest (text r)) db r] ∧ accepted_by digest db r.
Proof.
  assert (Hv : ∀ r, (validate_and_store db r).2 = db
                    ∨ ((validate_and_store db r).2 = db ++ [row_of (digest (text r)) db r]
                       ∧ accepted_by digest db r)).
  { intros r. rewrite validate_and_store_unfold.
    destruct ((String.length (text r) <? 5) || is_duplicate db (text r)) eqn:Hc;
      [by left|]. right. split; [done|]. by apply validate_and_store_accepts. }
  destruct op as [now src txt kwargs| | |record]; [|by left|by left|].
  - unfold run_op. rewrite process_event_db.
    destruct (Hv (normalize (ingest now src txt kwargs))) as [->|[-> Hacc]]; [by left|].
    right. by eexists.
  - unfold run_op. destruct (Hv record) as [->|[-> Hacc]]; [by left|].
    right. by eexists.
Qed.

(** A property of tables that every accepted insertion keeps is kept by
    every sequence of operations. *)
Lemma run_ops_preserves (P : list row → Prop) (db : list row) (ops : list pipeline_op) :
  (∀ db' r, P db' → accepted_by digest db' r →
     P (db' ++ [row_of (digest (text r)) db' r])) →
  P db → P (run_ops db ops).
Proof.
  intros Hstep. revert db. induction ops as [|op ops IH]; intros db HP; [done|].
  unfold run_ops in *. cbn [foldl]. apply IH.
  destruct (run_op_cases db op) as [->|(r & -> & Hacc)]; [done|]. by apply Hstep.
Qed.

Lemma run_ops_prefix (db : list row) (ops : list pipeline_op) :
  db `prefix_of` run_ops db ops.
Proof.
  apply (run_ops_preserves (λ db', db `prefix_of` db')); [|done].
  intros db' r Hp _. by apply prefix_app_r.
Qed.

Lemma is_duplicate_prefix (db db' : list row) (t : string) :
  db `prefix_of` db' → is_duplicate db t = true → is_duplicate db' t = true.
Proof.
  intros [k ->]. rewrite !is_duplicate_spec.
  unfold exact_duplicate, near_duplicate_in. rewrite !map_app.
  intros [He|(existing & Hin & Hlt)].
  - left. apply elem_of_app. by left.
  - right. exists existing. split; [|done]. apply elem_of_app. by left.
Qed.

(** A record that [validate_and_store] has rejected is rejected again
    after any later operations of the pipeline, and the table is left as
    they made it. *)
Theorem rejection_is_permanent (db : list row) (ops : list pipeline_op) (r : event) :
  (validate_and_store db r).1 = Returned false →
  validate_and_store (run_ops db ops) r = (Returned false, run_ops db ops).
Proof.
  rewrite !validate_and_store_unfold.
  destruct (String.length (text r) <? 5) eqn:Hlen; simpl; [done|].
  destruct (is_duplicate db (text r)) eqn:Hdup; [|done]. intros _.
  by rewrite (is_duplicate_prefix db (run_ops db ops) (text r) (run_ops_prefix db ops) Hdup).
Qed.

(** After [process_event] has seen a text (processed or rejected), every
    later call on a text that differs from it in letter case or in outer
    white space only is rejected, whatever the source, the metadata and the
    time of either call and whatever operations came in between; the table
    is left as it is. *)
Theorem variant_resubmission_rejected (db : list row) (ops : list pipeline_op)
  (txt txt' now src now' src' : string) (kw kw' : list (string * json)) :
  normalize_text txt' = normalize_text txt →
  process_event (run_ops (process_event db now src txt kw).2 ops) now' src' txt' kw'
  = (Returned {| status := "rejected"; reason := Some "duplicate_or_invalid";
                 result_event := None |},
     run_ops (process_event db now src txt kw).2 ops).
Proof.
  intros Hsame.
  set (db1 := (process_event db now src txt kw).2).
  assert (Hrej : (String.length (normalize_text txt) <? 5)
                 || is_duplicate db1 (normalize_text txt) = true).
  { unfold db1. rewrite process_event_unfold. cbv zeta. rewrite text_normalize_ingest.
    destruct (String.length (normalize_text txt) <? 5) eqn:Hlen; [done|]. simpl.
    destruct (is_duplicate db (normalize_text txt)) eqn:Hdup; simpl; [done|].
    apply is_duplicate_spec. left. unfold exact_duplicate.
    rewrite map_app. apply elem_of_app. right. simpl. by left. }
  rewrite process_event_unfold. cbv zeta. rewrite text_normalize_ingest, Hsame.
  apply orb_true_iff in Hrej as [Hlen|Hdup]; [by rewrite Hlen|].
  rewrite (is_duplicate_prefix db1 (run_ops db1 ops) _ (run_ops_prefix db1 ops) Hdup).
  by rewrite orb_true_r.
Qed.

Lemma unique_fingerprints_snoc (db : list row) (x : row) :
  unique_fingerprints db → row_hash x ∉ map row_hash db →
  unique_fingerprints (db ++ [x]).
Proof.
  intros Hu Hnew. unfold unique_fingerprints in *. rewrite map_app. simpl.
  apply NoDup_app. split; [done|]. split; [|apply NoDup_singleton].
  intros h Hin ->%list_elem_of_singleton. done.
Qed.

(** When every row carries the digest of its own text and a text of 5
    characters or more, this stays so through any sequence of operations;
    if moreover no two rows share a fingerprint, no two rows ever share a
    text. *)
Theorem table_stays_consistent (db : list row) (ops : list pipeline_op) :
  table_consistent digest db →
  table_consistent digest (run_ops db ops)
  ∧ (unique_fingerprints db → NoDup (map row_text (run_ops db ops))).
Proof.
  intros Hc. split.
  - apply run_ops_preserves; [|done]. intros db' r Hdb' (Hlen & _ & _).
    apply Forall_app. split; [done|]. apply Forall_singleton. by split.
  - intros Hu.
    assert (Hboth : table_consistent digest (run_ops db ops)
                    ∧ unique_fingerprints (run_ops db ops)).
    { apply (run_ops_preserves
               (λ d, table_consistent digest d ∧ unique_fingerprints d)); [|done].
      intros db' r [Hdb' Hu'] (Hlen & Hex & _). split.
      - apply Forall_app. split; [done|]. apply Forall_singleton. by split.
      - by apply unique_fingerprints_snoc. }
    destruct Hboth as [Hcons Huniq]. unfold unique_fingerprints in Huniq.
    assert (Hmap : map row_hash (run_ops db ops)
                   = map digest (map row_text (run_ops db ops))).
    { rewrite map_map. apply map_ext_in. intros x Hx.
      unfold table_consistent in Hcons. rewrite Forall_forall in Hcons.
      by apply Hcons, list_elem_of_In. }
    rewrite Hmap in Huniq. by apply NoDup_fmap_1 in Huniq.
Qed.

Lemma run_ops_later_not_near_earlier (db : list row) (ops : list pipeline_op) :
  later_not_near_earlier db → later_not_near_earlier (run_ops db ops).
Proof.
  apply run_ops_preserves. intros db' r Hfree (_ & _ & Hnear) i j x y Hij Hi Hj.
  destruct (decide (j < length db')) as [Hjlt|Hjge].
  - rewrite lookup_app_l in Hi, Hj by lia. by apply (Hfree i j).
  - assert (j = length db') as ->.
    { apply lookup_lt_Some in Hj. rewrite length_app in Hj. simpl in Hj. lia. }
    rewrite lookup_app_l in Hi by lia.
    rewrite lookup_app_r, Nat.sub_diag in Hj by lia. injection Hj as <-.
    simpl. apply Hnear. apply list_elem_of_fmap. exists x. split; [done|].
    by eapply list_elem_of_lookup_2.
Qed.

(** When every stored text has a ratio of 9/10 or less, as the candidate,
    against each text stored before it, this stays so through any sequence
    of operations.  The bound holds in that order of the arguments only:
    the ratio is not symmetric, and the pipeline stores
    [aaabcacaacbbabcbbc] and then [aaabcacaabbbcbc], whose ratio as the
    candidate is 26/33, although the ratio of the first against the second
    is 10/11. *)
Theorem later_texts_not_near_earlier (db : list row) (ops : list pipeline_op) :
  later_not_near_earlier db →
  later_not_near_earlier (run_ops db ops)
  ∧ (digest "aaabcacaacbbabcbbc" ≠ digest "aaabcacaabbbcbc" →
     let stored := run_ops [] [ProcessEvent "t0" "A" "aaabcacaacbbabcbbc" [];
                               ProcessEvent "t1" "B" "aaabcacaabbbcbc" []] in
     map row_text stored = ["aaabcacaacbbabcbbc"; "aaabcacaabbbcbc"]
     ∧ later_not_near_earlier stored
     ∧ (9 # 10 < str_ratio "aaabcacaacbbabcbbc" "aaabcacaabbbcbc")%Q).
Proof.
  intros Hfree. split; [by apply run_ops_later_not_near_earlier|].
  intros Hne stored. split; [|split].
  - unfold stored, run_ops, run_op. cbn [foldl].
    rewrite (process_event_unfold _ [] "t0"). cbv zeta.
    rewrite text_normalize_ingest.
    change (normalize_text "aaabcacaacbbabcbbc") with "aaabcacaacbbabcbbc".
    cbn [String.length Nat.ltb Nat.leb orb snd app].
    change (is_duplicate [] "aaabcacaacbbabcbbc") with false. cbn [snd app].
    rewrite process_event_unfold. cbv zeta. rewrite text_normalize_ingest.
    change (normalize_text "aaabcacaabbbcbc") with "aaabcacaabbbcbc".
    match goal with |- context [is_duplicate ?d "aaabcacaabbbcbc"] =>
      assert (Hdup : is_duplicate d "aaabcacaabbbcbc" = false) end.
    { apply not_true_iff_false. rewrite is_duplicate_spec.
      intros [Hex|(existing & Hin & Hlt)].
      - unfold exact_duplicate, row_of, _hash in Hex. simpl in Hex.
        apply list_elem_of_singleton in Hex. by destruct Hne.
      - simpl in Hin. apply list_elem_of_singleton in Hin. subst existing.
        by vm_compute in Hlt. }
    rewrite Hdup. reflexivity.
  - apply run_ops_later_not_near_earlier. intros i j x y Hij Hi Hj. done.
  - by vm_compute.
Qed.

(** A text that is stored is a duplicate, whatever the fingerprint column
    holds and whatever the digest: its ratio against itself is 1. *)
Theorem stored_text_is_duplicate (db : list row) (t : string) :
  t ∈ map row_text db → is_duplicate db t = true.
Proof.
  intros Hin. apply is_duplicate_spec. right. exists t. split; [done|].
  pose proof (ratio_identical (chars t)) as Hone. unfold str_ratio.
  fold (chars t). rewrite Hone. done.
Qed.

End PipelineMore.

(** ** Metadata of any kind *)

Section AnyMetaFacts.
Variable sha256_hexdigest : string → string.

Abbreviation digest := sha256_hexdigest.
Abbreviation is_duplicate := (is_duplicate sha256_hexdigest).

Lemma text_accepted_spec (db : list row) (t : string) :
  (String.length t <? 5) || is_duplicate db t = false ↔ text_accepted digest db t.
Proof.
  apply (validate_and_store_accepts sha256_hexdigest db (mk_event "" t "" [] None None)).
Qed.

Lemma json_dumps_encodable (kwargs : list (string * json)) :
  AnyMeta.json_dumps (AnyMeta.encodable kwargs) = Returned kwargs.
Proof.
  unfold AnyMeta.encodable. induction kwargs as [|[k v] kwargs IH]; [done|].
  cbn [map AnyMeta.json_dumps fst snd]. by rewrite IH.
Qed.

Lemma any_validate_and_store_unfold (db : list row) (r : AnyMeta.event) :
  AnyMeta.validate_and_store digest db r =
  if (String.length (AnyMeta.text r) <? 5) || is_duplicate db (AnyMeta.text r)
  then (Returned false, db)
  else match AnyMeta.json_dumps (AnyMeta.meta r) with
       | Raised e => (Raised e, db)
       | Returned written =>
           (Returned true,
            db ++ [mk_row (next_rowid db) (AnyMeta.source r) (AnyMeta.text r)
                     (digest (AnyMeta.text r)) (AnyMeta.received_at r) written])
       end.
Proof.
  unfold AnyMeta.validate_and_store.
  destruct (String.length (AnyMeta.text r) <? 5); simpl; [done|].
  destruct (is_duplicate db (AnyMeta.text r)) eqn:Hdup; [done|].
  destruct (AnyMeta.json_dumps (AnyMeta.meta r)) as [written|e]; [|done].
  unfold insert_event, _hash. rewrite bool_decide_eq_false_2; [done|].
  intros Hin. apply not_true_iff_false in Hdup. apply Hdup, is_duplicate_spec.
  by left.
Qed.

Lemma any_process_event_unfold (db : list row) (now src txt : string)
  (kwargs : list (string * AnyMeta.pyobject)) :
  let t := normalize_text txt in
  AnyMeta.process_event digest db now src txt kwargs =
  if (String.length t <? 5) || is_duplicate db t
  then (Returned {| AnyMeta.status := "rejected";
                    AnyMeta.reason := Some "duplicate_or_invalid";
                    AnyMeta.result_event := None |}, db)
  else match AnyMeta.json_dumps kwargs with
       | Raised e => (Raised e, db)
       | Returned written =>
           (Returned {| AnyMeta.status := "processed"; AnyMeta.reason := None;
                        AnyMeta.result_event := Some
                          {| AnyMeta.source := src; AnyMeta.text := t;
                             AnyMeta.received_at := now; AnyMeta.meta := kwargs;
                             AnyMeta.category :=
                               Some (first_match CATEGORIES t "UNCLASSIFIED");
                             AnyMeta.entities :=
                               Some {| location := "unknown"; timestamp := now;
                                       actors := [] |} |} |},
            db ++ [mk_row (next_rowid db) src t (digest t) now written])
       end.
Proof.
  intros t. unfold AnyMeta.process_event. rewrite any_validate_and_store_unfold.
  cbn [AnyMeta.text AnyMeta.normalize AnyMeta.ingest AnyMeta.meta AnyMeta.source
       AnyMeta.received_at].
  rewrite normalize_text_strip. fold t.
  destruct ((String.length t <? 5) || is_duplicate db t); [done|].
  destruct (AnyMeta.json_dumps kwargs) as [written|e]; [|done].
  unfold AnyMeta.enrich, AnyMeta.classify, AnyMeta.normalize, AnyMeta.ingest. simpl.
  by rewrite normalize_text_strip.
Qed.

(** On metadata that [json.dumps] writes, the pipeline of this module is
    the pipeline of the definitions above. *)
Lemma process_event_encodable (db : list row) (now src txt : string)
  (kwargs : list (string * json)) :
  AnyMeta.process_event digest db now src txt (AnyMeta.encodable kwargs)
  = (match (process_event digest db now src txt kwargs).1 with
     | Returned r => Returned (any_result r)
     | Raised e => Raised e
     end,
     (process_event digest db now src txt kwargs).2).
Proof.
  rewrite any_process_event_unfold, process_event_unfold. cbv zeta.
  rewrite !text_normalize_ingest, json_dumps_encodable.
  destruct ((String.length (normalize_text txt) <? 5)
            || is_duplicate db (normalize_text txt)); [done|].
  simpl. unfold any_result, any_event, row_of, _hash. simpl.
  by rewrite !normalize_text_strip.
Qed.

(** [process_event] from its raw arguments, the metadata being objects of
    any kind.  When the normalized text does not pass the three checks
    (5 characters or more, a new fingerprint, a ratio of 9/10 or less
    against every stored text), the result is [rejected] and the table is
    unchanged, whatever the metadata.  When it passes them and
    [json.dumps] raises on the metadata, that exception leaves
    [process_event] and the table is unchanged.  When it passes them and
    [json.dumps] writes the metadata, the result is [processed] and
    carries the event with the source and the metadata as given, the text
    lowered and stripped, its category, the location [unknown], no actors
    and the arrival time as timestamp, and one row with that text, its
    digest, the written metadata and the next row id is appended. *)
Theorem process_event_outcome (db : list row) (now src txt : string)
  (kwargs : list (string * AnyMeta.pyobject)) :
  let t := normalize_text txt in
  (¬ text_accepted digest db t
   ∧ AnyMeta.process_event digest db now src txt kwargs
     = (Returned {| AnyMeta.status := "rejected";
                    AnyMeta.reason := Some "duplicate_or_invalid";
                    AnyMeta.result_event := None |}, db))
  ∨ (text_accepted digest db t
     ∧ ∃ e, AnyMeta.json_dumps kwargs = Raised e
            ∧ AnyMeta.process_event digest db now src txt kwargs = (Raised e, db))
  ∨ (text_accepted digest db t
     ∧ ∃ written, AnyMeta.json_dumps kwargs = Returned written
       ∧ AnyMeta.process_event digest db now src txt kwargs
         = (Returned {| AnyMeta.status := "processed"; AnyMeta.reason := None;
                        AnyMeta.result_event := Some
                          {| AnyMeta.source := src; AnyMeta.text := t;
                             AnyMeta.received_at := now; AnyMeta.meta := kwargs;
                             AnyMeta.category :=
                               Some (first_match CATEGORIES t "UNCLASSIFIED");
                             AnyMeta.entities :=
                               Some {| location := "unknown"; timestamp := now;
                                       actors := [] |} |} |},
            db ++ [mk_row (next_rowid db) src t (digest t) now written])).
Proof.
  intros t. rewrite any_process_event_unfold. fold t.
  pose proof (text_accepted_spec db t) as Hacc.
  destruct ((String.length t <? 5) || is_duplicate db t).
  - left. split; [|done]. intros Ha. apply Hacc in Ha. done.
  - right. assert (Ha : text_accepted digest db t) by (by apply Hacc).
    destruct (AnyMeta.json_dumps kwargs) as [written|e].
    + right. split; [done|]. by exists written.
    + left. split; [done|]. by exists e.
Qed.

(** C10, amended.  For one table and one text, whatever the sources, the
    metadata and the times of two calls of [process_event]: when both
    return, their results have the same status, the same reason and the
    same category; a call on a text that the three checks reject returns
    the rejection, whatever its metadata; a call returns whenever
    [json.dumps] writes its metadata; and a call raises only on a text that
    passes the checks, with the exception [json.dumps] raises on its
    metadata, and then stores nothing. *)
Theorem process_event_depends_on_text (db : list row) (txt : string)
  (now1 src1 : string) (kw1 : list (string * AnyMeta.pyobject))
  (now2 src2 : string) (kw2 : list (string * AnyMeta.pyobject)) :
  let call1 := AnyMeta.process_event digest db now1 src1 txt kw1 in
  let call2 := AnyMeta.process_event digest db now2 src2 txt kw2 in
  (∀ r1 r2, call1.1 = Returned r1 → call2.1 = Returned r2 →
     AnyMeta.status r1 = AnyMeta.status r2
     ∧ AnyMeta.reason r1 = AnyMeta.reason r2
     ∧ AnyMeta.result_category r1 = AnyMeta.result_category r2)
  ∧ (¬ text_accepted digest db (normalize_text txt) →
     call1 = (Returned {| AnyMeta.status := "rejected";
                          AnyMeta.reason := Some "duplicate_or_invalid";
                          AnyMeta.result_event := None |}, db))
  ∧ (∀ written, AnyMeta.json_dumps kw1 = Returned written →
       ∃ r1, call1.1 = Returned r1)
  ∧ (∀ e, call1.1 = Raised e →
       text_accepted digest db (normalize_text txt)
       ∧ AnyMeta.json_dumps kw1 = Raised e
       ∧ call1.2 = db).
Proof.
  cbv zeta. rewrite !any_process_event_unfold. cbv zeta.
  set (t := normalize_text txt).
  pose proof (text_accepted_spec db t) as Hacc.
  destruct ((String.length t <? 5) || is_duplicate db t).
  - split; [by intros r1 r2 [= <-] [= <-]|]. split; [done|].
    split; [by eexists|]. by intros e [=].
  - assert (Ha : text_accepted digest db t) by (by apply Hacc).
    split; [|split; [done|split]].
    + intros r1 r2.
      destruct (AnyMeta.json_dumps kw1), (AnyMeta.json_dumps kw2); simpl; try done.
      by intros [= <-] [= <-].
    + intros written ->. by eexists.
    + intros e. destruct (AnyMeta.json_dumps kw1); simpl; [done|].
      by intros [= ->].
Qed.

End AnyMetaFacts.

(** C10, counterexample: on the empty table and one text, the call without
    metadata is processed, as CIVIL_ACTIVITY, and stores a row; the call
    whose metadata holds an object that [json.dumps] cannot write (a
    [datetime], say) raises [TypeError], returns no status and stores
    nothing. *)
Lemma process_event_metadata_raises :
  (∃ r, (AnyMeta.process_event plain_digest [] "t0" "OSINT"
           "Peaceful protest observed in Almaty" []).1 = Returned r
        ∧ AnyMeta.status r = "processed"
        ∧ AnyMeta.result_category r = Some "CIVIL_ACTIVITY")
  ∧ length (AnyMeta.process_event plain_digest [] "t0" "OSINT"
              "Peaceful protest observed in Almaty" []).2 = 1
  ∧ AnyMeta.process_event plain_digest [] "t0" "OSINT"
      "Peaceful protest observed in Almaty"
      [("when", AnyMeta.Unencodable AnyMeta.NoEncoding)]
    = (Raised TypeError, []).
Proof.
  split; [|split].
  - eexists. split; [by vm_compute|]. split; reflexivity.
  - by vm_compute.
  - by vm_compute.
Qed.

(** ** Classification inside the pipeline *)

Lemma keywords_no_outer_space (kw cat : string) :
  (kw, cat) ∈ CATEGORIES → no_outer_space kw = true.
Proof.
  unfold CATEGORIES. intros Hin.
  repeat (apply elem_of_cons in Hin as [[= -> ->]|Hin]; [by vm_compute|]).
  by apply elem_of_nil in Hin.
Qed.

(** [classify] always sets one of five labels; it is UNCLASSIFIED exactly
    when no keyword of the table occurs in the text; classifying twice is
    classifying once, and the label depends on the text only. *)
Theorem classify_labels (r : event) :
  ∃ c, category (classify r) = Some c
       ∧ c ∈ LABELS
       ∧ (c = "UNCLASSIFIED" ↔
          ∀ kw cat, (kw, cat) ∈ CATEGORIES → ¬ occurs_in kw (text r))
       ∧ classify (classify r) = classify r
       ∧ (∀ r', text r' = text r → category (classify r') = category (classify r)).
Proof.
  exists (first_match CATEGORIES (text r) "UNCLASSIFIED").
  split; [done|]. split; [|split; [|split]].
  - unfold CATEGORIES, LABELS. simpl.
    repeat (match goal with |- context [str_contains ?k ?t] =>
              destruct (str_contains k t) end;
            [repeat (first [by left|right])|]).
    repeat (first [by left|right]).
  - split.
    + intros Hc kw cat Hin Hocc. apply str_contains_spec in Hocc.
      revert Hc. unfold CATEGORIES in *. simpl.
      repeat (apply elem_of_cons in Hin as [[= -> ->]|Hin];
              [repeat (match goal with |- context [str_contains ?k ?t] =>
                         destruct (str_contains k t) eqn:? end; try done)|]).
      by apply elem_of_nil in Hin.
    + intros Hno. apply first_match_miss. intros kw cat Hin.
      apply not_occurs_contains. by apply (Hno kw cat).
  - done.
  - intros r' Hr'. by rewrite !category_classify, Hr'.
Qed.

Section PipelineClassification.
Variable sha256_hexdigest : string → string.

(** A keyword written in any letter case in the raw text decides the
    category of the processed event, when no earlier keyword of the table
    occurs in the lowered text: the pipeline lowers the text before it
    classifies. *)
Theorem keyword_in_any_case (db : list row) (now src txt : string)
  (kws : list (string * json)) (pre post : list (string * string))
  (kw cat w : string) (r : result) (db' : list row) :
  CATEGORIES = pre ++ (kw, cat) :: post →
  occurs_in w txt → str_lower w = kw →
  (∀ kw' cat', (kw', cat') ∈ pre → ¬ occurs_in kw' (str_lower txt)) →
  process_event sha256_hexdigest db now src txt kws = (Returned r, db') →
  status r = "processed" →
  result_category r = Some cat.
Proof.
  intros Htab Hw Hlow Hpre. rewrite process_event_unfold. cbv zeta.
  rewrite !text_normalize_ingest.
  destruct (_ || _); [by intros [= <- _]|]. intros [= <- _] _.
  change (Some (first_match CATEGORIES (text (normalize (ingest now src txt kws)))
                  "UNCLASSIFIED") = Some cat).
  f_equal. rewrite text_normalize_ingest, Htab.
  apply first_match_hit.
  - apply str_contains_spec. unfold normalize_text. apply occurs_in_strip_keep.
    + apply (keywords_no_outer_space kw cat). rewrite Htab.
      apply elem_of_app. right. by left.
    + rewrite <- Hlow. by apply occurs_in_str_lower.
  - intros kw' cat' Hin. apply not_occurs_contains. intros Hocc.
    apply (Hpre kw' cat' Hin). by apply occurs_in_strip.
Qed.

End PipelineClassification.

(** ** The summary *)

Lemma analyze_lookup (records : list event) (c : string) :
  analyze records !! c =
  match events_under c records with
  | 0 => None
  | S k => Some (S k)
  end.
Proof.
  unfold analyze. rewrite foldl_count_event_lookup, lookup_empty.
  by destruct (events_under c records).
Qed.

Lemma events_under_perm (c : string) (l1 l2 : list event) :
  l1 ≡ₚ l2 → events_under c l1 = events_under c l2.
Proof. intros Hp. unfold events_under. by rewrite Hp. Qed.

Lemma events_under_pos (c : string) (records : list event) :
  0 < events_under c records ↔ ∃ r, r ∈ records ∧ category_of r = c.
Proof.
  unfold events_under. split.
  - intros Hpos. destruct (filter (counted_under c) records) as [|r l] eqn:Hf;
      [simpl in Hpos; lia|].
    assert (Hin : r ∈ filter (counted_under c) records) by (rewrite Hf; by left).
    apply list_elem_of_filter in Hin as [Hc Hin]. exists r. split; [done|].
    by apply category_of_counted.
  - intros (r & Hin & Hc).
    assert (Hf : r ∈ filter (counted_under c) records).
    { apply list_elem_of_filter. split; [by apply category_of_counted|done]. }
    destruct (filter (counted_under c) records); [by apply elem_of_nil in Hf|].
    simpl. lia.
Qed.

(** [analyze] does not depend on the order of the events; the counts of a
    concatenation are the sums of the counts of its parts; a category has
    an entry exactly when an event carries it; the summary of no events is
    empty. *)
Theorem analyze_order_independent (l1 l2 : list event) :
  (l1 ≡ₚ l2 → analyze l1 = analyze l2)
  ∧ (∀ c, default 0 (analyze (l1 ++ l2) !! c)
          = default 0 (analyze l1 !! c) + default 0 (analyze l2 !! c))
  ∧ (∀ c, is_Some (analyze l1 !! c) ↔ ∃ r, r ∈ l1 ∧ category_of r = c)
  ∧ analyze [] = ∅.
Proof.
  split; [|split; [|split]].
  - intros Hp. apply map_eq. intros c.
    by rewrite !analyze_lookup, (events_under_perm c l1 l2 Hp).
  - intros c. rewrite !analyze_lookup, events_under_app.
    destruct (events_under c l1), (events_under c l2); simpl; lia.
  - intros c. rewrite analyze_lookup, <- events_under_pos.
    destruct (events_under c l1); split.
    + by intros [? ?].
    + lia.
    + lia.
    + by eexists.
  - done.
Qed.

(** ** Lengths and the ratio *)

Lemma length_chars (s : string) : length (chars s) = String.length s.
Proof. unfold chars. induction s as [|c s IH]; simpl; [done|]. by rewrite IH. Qed.

(** Two texts, not both empty, of which the shorter has at most 9/11 of the
    length of the longer are no near duplicates, whatever their
    characters: the ratio is at most twice the shorter length over the sum
    of the lengths. *)
Theorem length_gap_not_near_duplicate (txt existing : string) :
  0 < String.length txt + String.length existing →
  11 * Nat.min (String.length txt) (String.length existing)
    ≤ 9 * Nat.max (String.length txt) (String.length existing) →
  near_duplicate txt existing = false.
Proof.
  intros Hpos Hgap. unfold near_duplicate. apply negb_false_iff, Qle_bool_iff.
  unfold str_ratio, ratio. fold (chars txt) (chars existing).
  destruct (get_matching_blocks_sum (chars txt) (chars existing)) as [Ha Hb].
  rewrite !length_chars in *.
  set (m := sum_sizes (get_matching_blocks (chars txt) (chars existing))) in *.
  unfold _calculate_ratio.
  destruct (String.length txt + String.length existing =? 0) eqn:Hz;
    [apply Nat.eqb_eq in Hz; lia|].
  unfold Qle. simpl. rewrite Zpos_of_nat by lia. lia.
Qed.

(** ** The script run again *)

Section ScriptFacts.
Variable sha256_hexdigest : string → string.

Abbreviation refused := (refused sha256_hexdigest).

Lemma refused_prefix (db db' : list row) (txt : string) :
  db `prefix_of` db' → refused db txt → refused db' txt.
Proof.
  unfold refused. intros Hp [Hlen|Hdup]%orb_true_iff; [by rewrite Hlen|].
  rewrite (is_duplicate_prefix sha256_hexdigest db db' _ Hp Hdup). apply orb_true_r.
Qed.

Lemma process_event_then_refused (db : list row) (now src txt : string)
  (kw : list (string * json)) :
  ∃ r, process_event sha256_hexdigest db now src txt kw
       = (Returned r, (process_event sha256_hexdigest db now src txt kw).2)
       ∧ db `prefix_of` (process_event sha256_hexdigest db now src txt kw).2
       ∧ refused (process_event sha256_hexdigest db now src txt kw).2 txt.
Proof.
  rewrite process_event_unfold. cbv zeta. rewrite !text_normalize_ingest. unfold refused.
  destruct (String.length (normalize_text txt) <? 5) eqn:Hlen; simpl.
  { eexists. split; [done|]. split; done. }
  destruct (is_duplicate sha256_hexdigest db (normalize_text txt)) eqn:Hdup; simpl.
  { eexists. split; [done|]. split; [done|]. by rewrite ?Hlen, ?Hdup. }
  eexists. split; [done|]. split; [by apply prefix_app_r|]. rewrite ?Hlen. simpl.
  apply is_duplicate_spec. left. unfold exact_duplicate.
  rewrite map_app. apply elem_of_app. right. simpl. by left.
Qed.

Lemma process_all_spec (calls : list (string * string)) (clock : nat → string)
  (n : nat) (db : list row) :
  db `prefix_of` (process_all sha256_hexdigest clock n db calls).2
  ∧ length (process_all sha256_hexdigest clock n db calls).1 = length calls
  ∧ existsb raised (process_all sha256_hexdigest clock n db calls).1 = false
  ∧ ∀ src txt, (src, txt) ∈ calls →
      refused (process_all sha256_hexdigest clock n db calls).2 txt.
Proof.
  revert n db. induction calls as [|[src txt] calls IH]; intros n db.
  { simpl. split; [done|]. split; [done|]. split; [done|]. by intros ? ? ?%elem_of_nil. }
  cbn [process_all].
  destruct (process_event_then_refused db (clock n) src txt []) as (r & -> & Hp & Href).
  set (db' := (process_event sha256_hexdigest db (clock n) src txt []).2) in *.
  destruct (IH (S n) db') as (Hp' & Hlen & Hret & Hall).
  destruct (process_all sha256_hexdigest clock (S n) db' calls) as [rs db''].
  simpl in *. split; [by etrans|]. split; [by rewrite Hlen|]. split; [done|].
  intros src' txt' [[= -> ->]|Hin]%elem_of_cons; [|by apply (Hall src')].
  by apply (refused_prefix db').
Qed.

Lemma process_all_refused (calls : list (string * string)) (clock : nat → string)
  (n : nat) (db : list row) :
  (∀ src txt, (src, txt) ∈ calls → refused db txt) →
  process_all sha256_hexdigest clock n db calls
  = (map (λ _, Returned {| status := "rejected"; reason := Some "duplicate_or_invalid";
                           result_event := None |}) calls, db).
Proof.
  revert n. induction calls as [|[src txt] calls IH]; intros n Hall; [done|].
  cbn [process_all]. rewrite process_event_unfold. cbv zeta.
  rewrite !text_normalize_ingest.
  assert (Hr : refused db txt) by (apply (Hall src); by left).
  unfold refused in Hr. rewrite Hr.
  rewrite IH; [done|]. intros src' txt' Hin. apply (Hall src'). by right.
Qed.

Lemma main_unfold (clock : nat → string) (db : list row) :
  main sha256_hexdigest clock db
  = ((process_all sha256_hexdigest clock 0 db examples).1
     ++ [Returned {| status := "analytics_ready"; reason := None;
                     result_event := None |}],
     (process_all sha256_hexdigest clock 0 db examples).2).
Proof.
  unfold main, _init_db.
  destruct (process_all_spec examples clock 0 db) as (_ & _ & Hret & _).
  destruct (process_all sha256_hexdigest clock 0 db examples) as [printed db'].
  simpl in Hret. by rewrite Hret.
Qed.

(** The script never ends in an exception: it prints one result for each
    example and then the answer of [analyze_all].  Run again on the table
    an earlier run left, with whatever clock, it prints four rejections,
    then that answer, and leaves the table as it found it; so does any
    batch of calls repeated on the table its first pass left. *)
Theorem script_rerun_rejects_all (db : list row) (clock clock' : nat → string)
  (calls : list (string * string)) (n n' : nat) :
  (let db1 := (process_all sha256_hexdigest clock n db calls).2 in
   process_all sha256_hexdigest clock' n' db1 calls
   = (map (λ _, Returned {| status := "rejected"; reason := Some "duplicate_or_invalid";
                            result_event := None |}) calls, db1))
  ∧ (∃ printed,
       (main sha256_hexdigest clock db).1
       = printed ++ [Returned {| status := "analytics_ready"; reason := None;
                                 result_event := None |}]
       ∧ length printed = 4 ∧ existsb raised printed = false)
  ∧ (let db1 := (main sha256_hexdigest clock db).2 in
     main sha256_hexdigest clock' db1
     = (replicate 4 (Returned {| status := "rejected";
                                 reason := Some "duplicate_or_invalid";
                                 result_event := None |})
        ++ [Returned {| status := "analytics_ready"; reason := None;
                        result_event := None |}],
        db1)).
Proof.
  split; [|split].
  - cbv zeta. apply process_all_refused.
    apply (process_all_spec calls clock n db).
  - rewrite main_unfold. cbn [fst].
    destruct (process_all_spec examples clock 0 db) as (_ & Hlen & Hret & _).
    eexists. split; [done|]. by split.
  - cbv zeta. rewrite !main_unfold. cbn [snd].
    rewrite (process_all_refused examples clock' 0); [done|].
    apply (process_all_spec examples clock 0 db).
Qed.

End ScriptFacts.

(** ** One sequence a prefix of the other *)

Section PrefixMatch.
Context {A : Type} `{Countable A}.
Variables a b : list A.

(** The two sequences agree as far as the shorter one goes. *)
Hypothesis agree : ∀ i, i < Nat.min (length a) (length b) → a !! i = b !! i.

Lemma b2j_get_agree (i : nat) :
  i < Nat.min (length a) (length b) →
  b2j_get a (chain_b b) i = b2j_get b (chain_b b) i.
Proof. intros Hi. unfold b2j_get. by rewrite agree. Qed.

Lemma b2j_get_column (i j : nat) :
  j ∈ b2j_get a (chain_b b) i →
  j < length b ∧ b2j_get b (chain_b b) j ≠ [].
Proof.
  intros Hj. destruct (b2j_get_chain_b a b i j Hj) as (x & Ha & Hb).
  split; [by eapply lookup_lt_Some|].
  unfold b2j_get in *. rewrite Ha in Hj. rewrite Hb.
  destruct (chain_b b !! x); simpl in *; [|by apply elem_of_nil in Hj].
  intros ->. by apply elem_of_nil in Hj.
Qed.

(** The rows both sequences have: the scan goes as it does for [b] against
    itself. *)
Lemma scan_rows_shared (m i : nat) (rest : list nat) (j2len : gmap nat nat)
  (best : block) :
  i + m ≤ Nat.min (length a) (length b) → row_inv b i j2len best →
  ∃ j2len' best',
    scan_rows a (chain_b b) 0 (length b) (seq i m ++ rest) j2len best
    = scan_rows a (chain_b b) 0 (length b) rest j2len' best'
    ∧ row_inv b (i + m) j2len' best'.
Proof.
  revert i j2len best. induction m as [|m IH]; intros i j2len best Hm Hinv.
  { exists j2len, best. by rewrite Nat.add_0_r. }
  cbn [seq app scan_rows]. rewrite b2j_get_agree by lia.
  destruct Hinv as (Hprev & Hdiag & Hdiagonal & Hdom).
  replace (i + S m) with (S i + m) by lia.
  destruct (b2j_get b (chain_b b) i) as [|j0 js0] eqn:Hrow.
  - simpl. apply IH; [lia|]. split; [|split; [|split]].
    + intros j k. by rewrite lookup_empty.
    + simpl. by rewrite run_unfold, Hrow.
    + done.
    + intros j Hj. destruct (decide (j = i)) as [->|]; [|apply Hdom; lia].
      rewrite run_unfold, Hrow. lia.
  - rewrite <- Hrow.
    pose proof (scan_row_identical b i j2len (b2j_get b (chain_b b) i) ∅ best
                  Hprev Hdiag) as Hscan.
    destruct (scan_row j2len i 0 (length b) (b2j_get b (chain_b b) i) ∅ best)
      as [newj2len best'] eqn:Hres.
    simpl in Hscan. destruct Hscan as (Hnew & Hseen & Hdiagonal' & Hdom').
    + intros j Hj. destruct (row_js_spec b i j Hj) as (_ & Heq & Hlt & _).
      split; [|done]. by rewrite Heq, Hrow.
    + by rewrite Hrow.
    + destruct (row_js_spec b i j0) as (_ & _ & _ & Hs); [rewrite Hrow; by left|done].
    + split; [|split; [|split]]; [|left|done|done].
      * intros j k. by rewrite lookup_empty.
      * destruct (row_js_spec b i j0) as (Hi & _); [rewrite Hrow; by left|done].
    + destruct Hseen as [?%elem_of_nil|[Hl Hrun]]; [done|].
      apply IH; [lia|]. split; [|split; [|split]].
      * intros j k Hk. by apply Hnew.
      * simpl. by rewrite Hl.
      * done.
      * intros j Hj. destruct (decide (j = i)) as [->|]; [done|apply Hdom'; lia].
Qed.

(** A row of [a] below the end of [b]: no candidate beats the diagonal. *)
Lemma scan_row_below (i : nat) (j2len : gmap nat nat) (js : list nat)
  (newj2len : gmap nat nat) (best : block) :
  (∀ j k, j2len !! j = Some k → k ≤ run b j) →
  (∀ j, j ∈ js → j < length b ∧ b2j_get b (chain_b b) j ≠ []) →
  (∀ j, j < length b → run b j ≤ best.2) →
  (∀ j k, newj2len !! j = Some k → k ≤ run b j) →
  (scan_row j2len i 0 (length b) js newj2len best).2 = best
  ∧ ∀ j k, (scan_row j2len i 0 (length b) js newj2len best).1 !! j = Some k →
           k ≤ run b j.
Proof.
  intros Hprev Hjs Hdom. revert newj2len.
  induction js as [|j js IH]; intros newj2len Hnew; simpl; [done|].
  destruct (Hjs j) as [Hjlt Hjne]; [by left|].
  replace (length b <=? j) with false by (symmetry; apply Nat.leb_gt; lia).
  assert (Hrj : run b j = S (run_before b j)).
  { rewrite run_unfold. by destruct (b2j_get b (chain_b b) j). }
  assert (Hget : j2lenget j2len j ≤ run_before b j).
  { destruct j as [|j']; simpl; [lia|].
    destruct (j2len !! j') as [k'|] eqn:Hk'; simpl; [|lia]. by apply Hprev. }
  specialize (Hdom j Hjlt).
  replace (best.2 <? j2lenget j2len j + 1) with false
    by (symmetry; apply Nat.ltb_ge; lia).
  apply IH; [intros j' Hj'; apply Hjs; by right|].
  intros j' k'. rewrite lookup_insert. case_decide as Hjj; [|apply Hnew].
  intros [= <-]. subst j'. lia.
Qed.

Lemma scan_rows_below (rows : list nat) (j2len : gmap nat nat) (best : block) :
  (∀ j k, j2len !! j = Some k → k ≤ run b j) →
  (∀ j, j < length b → run b j ≤ best.2) →
  scan_rows a (chain_b b) 0 (length b) rows j2len best = best.
Proof.
  revert j2len. induction rows as [|i rows IH]; intros j2len Hprev Hdom; [done|].
  cbn [scan_rows].
  destruct (scan_row_below i j2len (b2j_get a (chain_b b) i) ∅ best Hprev)
    as [Hbest Hnew]; [by intros j Hj; eapply b2j_get_column|done| |].
  { intros j k. by rewrite lookup_empty. }
  destruct (scan_row j2len i 0 (length b) (b2j_get a (chain_b b) i) ∅ best)
    as [newj2len best'].
  simpl in Hbest, Hnew. subst best'. by apply IH.
Qed.

Lemma elt_eqb_agree (i : nat) :
  i < Nat.min (length a) (length b) → elt_eqb (a !! i) (b !! i) = true.
Proof. intros Hi. rewrite agree by done. apply elt_eqb_refl. lia. Qed.

Lemma extend_left_shared (d k : nat) :
  d ≤ Nat.min (length a) (length b) →
  extend_left a b false 0 0 d d k = (0, 0, k + d).
Proof.
  revert k. induction d as [|d IH]; intros k Hd; simpl; [f_equal; lia|].
  rewrite isbjunk_false, elt_eqb_agree by lia. simpl.
  rewrite IH by lia. f_equal. lia.
Qed.

Lemma extend_right_shared (junk : bool) (fuel k : nat) :
  k ≤ Nat.min (length a) (length b) →
  (junk = false → Nat.min (length a) (length b) - k ≤ fuel) →
  (junk = true → k = Nat.min (length a) (length b)) →
  extend_right a b junk (length a) (length b) 0 0 fuel k
  = Nat.min (length a) (length b).
Proof.
  revert k. induction fuel as [|fuel IH]; intros k Hk Hfuel Hjunk; simpl.
  { destruct junk; [by apply Hjunk|]. specialize (Hfuel eq_refl). lia. }
  destruct (decide (k = Nat.min (length a) (length b))) as [Heq|Hne].
  - replace ((k <? length a) && (k <? length b)) with false; [done|].
    symmetry. apply andb_false_iff. rewrite !Nat.ltb_ge. lia.
  - destruct junk; [by destruct Hne; apply Hjunk|].
    replace (k <? length a) with true by (symmetry; apply Nat.ltb_lt; lia).
    replace (k <? length b) with true by (symmetry; apply Nat.ltb_lt; lia).
    rewrite isbjunk_false, elt_eqb_agree by lia. simpl.
    apply IH; [lia| |done]. intros _. specialize (Hfuel eq_refl). lia.
Qed.

Lemma find_longest_match_prefix :
  find_longest_match a b (chain_b b) 0 (length a) 0 (length b)
  = (0, 0, Nat.min (length a) (length b)).
Proof.
  set (n := Nat.min (length a) (length b)).
  unfold find_longest_match. rewrite Nat.sub_0_r.
  assert (Hrows : seq 0 (length a) = seq 0 n ++ seq n (length a - n)).
  { rewrite <- seq_app. f_equal. lia. }
  pose proof (scan_rows_range a (chain_b b) 0 (length a) 0 (length b)
                (length a) 0 ∅ (0, 0, 0)) as Hrange.
  assert (Hdiag : (scan_rows a (chain_b b) 0 (length b) (seq 0 (length a)) ∅
                     (0, 0, 0)).1.1
                  = (scan_rows a (chain_b b) 0 (length b) (seq 0 (length a)) ∅
                       (0, 0, 0)).1.2).
  { rewrite Hrows.
    destruct (scan_rows_shared n 0 (seq n (length a - n)) ∅ (0, 0, 0))
      as (j2len' & best' & -> & Hinv); [lia| |].
    { split; [|split; [|split]]; [|done|done|intros j Hj; lia].
      intros j k. by rewrite lookup_empty. }
    destruct Hinv as (Hprev & _ & Hdiagonal & Hdom).
    destruct (decide (length a ≤ n)) as [Hle|Hgt].
    - replace (length a - n) with 0 by lia. done.
    - rewrite scan_rows_below; [done| |].
      + intros j k Hk. by apply Hprev.
      + intros j Hj. apply Hdom. lia. }
  destruct (scan_rows a (chain_b b) 0 (length b) (seq 0 (length a)) ∅ (0, 0, 0))
    as [[i0 j0] k0].
  simpl in Hdiag. subst j0.
  destruct Hrange as (_ & _ & Hi0 & Hj0); [lia|lia| |unfold in_range; simpl; lia|].
  { intros j k. by rewrite lookup_empty. }
  simpl in Hi0, Hj0. rewrite extend_left_shared by lia.
  rewrite Nat.add_0_l.
  rewrite (extend_right_shared false) by (try done; lia).
  simpl. by rewrite (extend_right_shared true) by (try done; lia).
Qed.

Lemma get_matching_blocks_prefix :
  sum_sizes (get_matching_blocks a b) = Nat.min (length a) (length b).
Proof.
  unfold get_matching_blocks.
  replace (2 * length a + 1) with (S (2 * length a)) by lia.
  cbn [match_queue]. rewrite find_longest_match_prefix.
  destruct (Nat.min (length a) (length b) =? 0) eqn:Hn.
  - rewrite match_queue_nil, finish_blocks_sum. apply Nat.eqb_eq in Hn. by rewrite Hn.
  - rewrite Nat.ltb_irrefl. cbn [andb]. rewrite !Nat.add_0_l.
    replace ((Nat.min (length a) (length b) <? length a)
             && (Nat.min (length a) (length b) <? length b)) with false.
    + rewrite match_queue_nil, finish_blocks_sum. simpl. lia.
    + symmetry. apply andb_false_iff. rewrite !Nat.ltb_ge. lia.
Qed.

End PrefixMatch.

Lemma chars_append (p s : string) : chars (String.append p s) = chars p ++ chars s.
Proof.
  unfold chars. induction p as [|c p IH]; [done|].
  rewrite append_cons. simpl. by rewrite IH.
Qed.

Lemma near_duplicate_prefix_pair (a b : string) (n m : nat) :
  0 < n →
  length (chars a) + length (chars b) = 2 * n + m →
  sum_sizes (get_matching_blocks (chars a) (chars b)) = n →
  near_duplicate a b = true ↔ 9 * m < 2 * n.
Proof.
  intros Hn Hlen Hsum. unfold near_duplicate, str_ratio, ratio.
  fold (chars a) (chars b). rewrite Hsum, Hlen.
  rewrite negb_true_iff, <- not_true_iff_false, Qle_bool_iff.
  unfold _calculate_ratio. destruct (2 * n + m =? 0) eqn:Hz;
    [apply Nat.eqb_eq in Hz; lia|].
  unfold Qle. simpl. rewrite Zpos_of_nat by lia. lia.
Qed.

(** A text [p] and the same text with [s] added at its end have the ratio
    [2|p| / (2|p| + |s|)] in either order: they are near duplicates
    exactly when [9|s| < 2|p|], and then each is a duplicate for a table
    that stores the other. *)
Theorem extended_text_near_duplicate (p s : string) :
  p ≠ "" →
  (near_duplicate (String.append p s) p = true ↔ 9 * String.length s < 2 * String.length p)
  ∧ (near_duplicate p (String.append p s) = true
     ↔ 9 * String.length s < 2 * String.length p)
  ∧ (∀ digest db, 9 * String.length s < 2 * String.length p →
       (p ∈ map row_text db → is_duplicate digest db (String.append p s) = true)
       ∧ (String.append p s ∈ map row_text db → is_duplicate digest db p = true))
  ∧ str_ratio (String.append p s) p
    = _calculate_ratio (String.length p) (2 * String.length p + String.length s)
  ∧ str_ratio p (String.append p s)
    = _calculate_ratio (String.length p) (2 * String.length p + String.length s).
Proof.
  intros Hp.
  assert (Hn : 0 < String.length p) by (destruct p; [done|simpl; lia]).
  assert (H1 : near_duplicate (String.append p s) p = true
               ↔ 9 * String.length s < 2 * String.length p).
  { apply near_duplicate_prefix_pair; [done| |].
    - rewrite chars_append, length_app, !length_chars. lia.
    - rewrite get_matching_blocks_prefix.
      + rewrite chars_append, length_app, !length_chars. lia.
      + intros i Hi. rewrite chars_append. apply lookup_app_l. lia. }
  assert (H2 : near_duplicate p (String.append p s) = true
               ↔ 9 * String.length s < 2 * String.length p).
  { apply near_duplicate_prefix_pair; [done| |].
    - rewrite chars_append, length_app, !length_chars. lia.
    - rewrite get_matching_blocks_prefix.
      + rewrite chars_append, length_app, !length_chars. lia.
      + intros i Hi. rewrite chars_append. symmetry. apply lookup_app_l. lia. }
  split; [done|]. split; [done|]. split; [|split].
  - intros digest db Hlt. split; intros Hin; apply is_duplicate_spec; right.
    + exists p. split; [done|]. apply near_duplicate_spec. by apply H1.
    + exists (String.append p s). split; [done|]. apply near_duplicate_spec.
      by apply H2.
  - unfold str_ratio, ratio. fold (chars (String.append p s)) (chars p).
    rewrite get_matching_blocks_prefix.
    + rewrite chars_append, length_app, !length_chars. f_equal; lia.
    + intros i Hi. rewrite chars_append. apply lookup_app_l. lia.
  - unfold str_ratio, ratio. fold (chars (String.append p s)) (chars p).
    rewrite get_matching_blocks_prefix.
    + rewrite chars_append, length_app, !length_chars. f_equal; lia.
    + intros i Hi. rewrite chars_append. symmetry. apply lookup_app_l. lia.
Qed.

(** ** The endpoint over sequences of requests *)

Section ApiMore.
Variable sha256_hexdigest : string → string.
Variable pg_text : json → string + Api.refusal.

Abbreviation api_ingest := (Api.ingest sha256_hexdigest pg_text).
Abbreviation make_hash := (Api.make_hash sha256_hexdigest).
Abbreviation check_duplicate := (Api.check_duplicate sha256_hexdigest).
Abbreviation run_ingests := (run_ingests sha256_hexdigest pg_text).




(** A property of the database that every stored row preserves holds
    after any sequence of requests. *)
Lemma run_ingests_preserves (P : Api.database → Prop) (db : Api.database)
  (calls : list ingest_call) :
  (∀ d src t recv m cat prov,
     P d → 5 ≤ String.length t → strip t = t →
     make_hash t ∉ map Api.hash (Api.events d) →
     P {| Api.events := Api.events d ++
            [Api.mk_api_row (S (Api.events_id_seq d)) src t recv (make_hash t) m cat prov];
          Api.events_id_seq := S (Api.events_id_seq d) |}) →
  P db → P (run_ingests db calls).
Proof.
  intros Hstep. revert db. induction calls as [|c calls IH]; intros db HP; [done|].
  change (P (run_ingests (api_ingest db (call_payload c) (call_client c)
                            (call_now_prov c) (call_now_record c) (call_reply c)).2 calls)).
  apply IH.
  destruct (ingest_cases sha256_hexdigest pg_text db (call_payload c) (call_client c)
              (call_now_prov c) (call_now_record c) (call_reply c))
    as [[_ ->]|[(_ & _ & ->)|[(_ & _ & _ & ->)
        |[(_ & _ & cat & e & _ & _ & _ & ->)
         |(Hlen & Hnew & cat & c' & _ & _ & _ & _ & _ & _ & ->)]]]];
    try done.
  simpl. apply Hstep; try done. apply strip_idem.
Qed.

Lemma run_ingests_prefix (db : Api.database) (calls : list ingest_call) :
  (Api.events db `prefix_of` Api.events (run_ingests db calls))
  ∧ Api.events_id_seq db ≤ Api.events_id_seq (run_ingests db calls).
Proof.
  apply (run_ingests_preserves
           (λ d, (Api.events db `prefix_of` Api.events d)
                 ∧ Api.events_id_seq db ≤ Api.events_id_seq d)); [|done].
  intros d src t recv m cat prov [Hpre Hseq] _ _ _. simpl. split; [|lia].
  by apply prefix_app_r.
Qed.

Lemma run_ingests_api_ok (db : Api.database) (calls : list ingest_call) :
  api_ok sha256_hexdigest db → api_ok sha256_hexdigest (run_ingests db calls).
Proof.
  apply (run_ingests_preserves (api_ok sha256_hexdigest)).
  clear. intros d src t recv m cat prov (Hnd & Hsorted & Hall) Hlen Hstrip Hnew.
  unfold api_ok. simpl. split; [|split].
  - rewrite map_app. simpl. apply NoDup_app. split; [done|]. split.
    + intros h Hh ->%list_elem_of_singleton. done.
    + apply NoDup_singleton.
  - apply StronglySorted_app_2; [|done|repeat constructor].
    intros x y Hx ->%list_elem_of_singleton. simpl.
    rewrite Forall_forall in Hall. destruct (Hall x Hx) as [Hid _]. lia.
  - apply Forall_app. split.
    + eapply Forall_impl; [exact Hall|]. simpl. intros r (Hid & ? & ? & ?).
      repeat split; try done. lia.
    + apply Forall_singleton. simpl. done.
Qed.

(** Whatever requests arrive, in sequence, the table keeps its rows, ids
    grow along it, no two rows share a hash, each hash is [make_hash] of
    the stored text, and each stored text is stripped and has 5 characters
    or more. *)
Theorem ingest_keeps_table_sound (db : Api.database) (calls : list ingest_call) :
  api_ok sha256_hexdigest db →
  api_ok sha256_hexdigest (run_ingests db calls)
  ∧ (Api.events db `prefix_of` Api.events (run_ingests db calls))
  ∧ Api.events_id_seq db ≤ Api.events_id_seq (run_ingests db calls).
Proof.
  intros Hok. split; [by apply run_ingests_api_ok|apply run_ingests_prefix].
Qed.

(** When the ids of the table are 1 up to the value of the sequence, they
    stay so: the sequence advances exactly when a row is stored, so the
    UNIQUE constraint never fires between sequential requests, and the
    next id is the number of rows plus one. *)
Theorem ingest_ids_consecutive (db : Api.database) (calls : list ingest_call) :
  ids_dense db →
  ids_dense (run_ingests db calls)
  ∧ Api.events_id_seq (run_ingests db calls) = length (Api.events (run_ingests db calls))
  ∧ ∀ payload client now_prov now_record reply,
      (api_ingest (run_ingests db calls) payload client now_prov now_record reply).1
      ≠ Raised IntegrityError.
Proof.
  intros Hdense.
  assert (Hd : ids_dense (run_ingests db calls)).
  { apply (run_ingests_preserves ids_dense); [|done].
    clear. intros d src t recv m cat prov Hd _ _ _. unfold ids_dense in *.
    cbn [Api.events Api.events_id_seq]. by rewrite map_app, Hd, seq_S. }
  split; [done|]. split.
  - unfold ids_dense in Hd. apply (f_equal length) in Hd.
    by rewrite length_map, length_seq in Hd.
  - intros payload client now_prov now_record reply.
    destruct (ingest_cases sha256_hexdigest pg_text (run_ingests db calls) payload client
                now_prov now_record reply)
      as [[_ ->]|[(_ & _ & ->)|[(_ & _ & _ & ->)
          |[(_ & _ & cat & e & _ & He & _ & ->)
           |(_ & _ & cat & c & _ & _ & _ & _ & _ & _ & ->)]]]]; try done.
    simpl. intros [= ->]. done.
Qed.


End ApiMore.

(** ** The stub as the endpoint's oracle *)

Lemma str_contains_normalize_text (kw cat t : string) :
  (kw, cat) ∈ CATEGORIES →
  str_contains kw (normalize_text t) = str_contains kw (str_lower t).
Proof.
  intros Hin. apply keywords_no_outer_space in Hin. unfold normalize_text.
  destruct (str_contains kw (str_lower t)) eqn:Hc.
  - apply str_contains_spec. apply str_contains_spec in Hc.
    by apply occurs_in_strip_keep.
  - apply not_occurs_contains. intros Hocc. apply occurs_in_strip in Hocc.
    apply str_contains_spec in Hocc. congruence.
Qed.

Lemma occurs_in_contains (kw t : string) (b : bool) :
  str_contains kw t = b → (occurs_in kw t ↔ b = true).
Proof. intros <-. symmetry. apply str_contains_spec. Qed.


(** The stub's answer names one of its four categories, UNCLASSIFIED
    exactly when none of its five Latin keywords occurs in the lowered
    text.  It is the pipeline's category of the same text except when,
    with neither [protest] nor [threat] in the text, [attack] occurs
    (SECURITY_ALERT for the stub; CRISIS_EVENT for the pipeline, or
    INFRASTRUCTURE when [outage] occurs too) or [power] occurs without
    [outage] (INFRASTRUCTURE for the stub, UNCLASSIFIED for the
    pipeline). *)
Theorem stub_and_pipeline_categories (txt : string) :
  ∃ c confidence,
    MlStub.classify_text txt = MlStub.answer c confidence
    ∧ c ∈ STUB_LABELS
    ∧ Api.dict_get (MlStub.classify_text txt) "category" = Some (JStr c)
    ∧ (c = first_match CATEGORIES (normalize_text txt) "UNCLASSIFIED"
       ↔ ¬ classifiers_differ (str_lower txt))
    ∧ (c = "UNCLASSIFIED"
       ↔ ∀ kw, kw ∈ ["protest"; "threat"; "attack"; "outage"; "power"] →
               ¬ occurs_in kw (str_lower txt)).
Proof.
  unfold MlStub.classify_text, MlStub.cyrillic_in, classifiers_differ, CATEGORIES.
  cbn [first_match].
  rewrite !(str_contains_normalize_text _ _ txt) by
    (unfold CATEGORIES; repeat first [by left|right]).
  rewrite !orb_false_r.
  set (t := str_lower txt).
  destruct (str_contains "protest" t) eqn:Hprotest;
    destruct (str_contains "threat" t) eqn:Hthreat;
    destruct (str_contains "attack" t) eqn:Hattack;
    destruct (str_contains "outage" t) eqn:Houtage;
    destruct (str_contains "power" t) eqn:Hpower;
    apply occurs_in_contains in Hprotest, Hthreat, Hattack, Houtage, Hpower;
    cbn [orb]; eexists _, _; (split; [reflexivity|]);
    (split; [unfold STUB_LABELS; repeat first [by left|right]|]);
    (split; [reflexivity|]);
    (split; [rewrite Hprotest, Hthreat, Hattack, Houtage, Hpower;
             split; [intros ? (? & ? & ?); try done; intuition congruence
                    |intros ?; try done; exfalso; intuition congruence]|]);
    (split; [try done; intros _ kw Hkw;
             repeat (apply elem_of_cons in Hkw as [->|Hkw];
                     [intuition congruence|]);
             by apply elem_of_nil in Hkw
            |intros Hno; try done; exfalso]).
  all: first [apply (Hno "protest"); [repeat first [by left|right]|by apply Hprotest]
             |apply (Hno "threat"); [repeat first [by left|right]|by apply Hthreat]
             |apply (Hno "attack"); [repeat first [by left|right]|by apply Hattack]
             |apply (Hno "outage"); [repeat first [by left|right]|by apply Houtage]
             |apply (Hno "power"); [repeat first [by left|right]|by apply Hpower]].
Qed.

Section ApiWithStub.
Variable sha256_hexdigest : string → string.
Variable pg_text : json → string + Api.refusal.

Abbreviation api_ingest := (Api.ingest sha256_hexdigest pg_text).
Abbreviation make_hash := (Api.make_hash sha256_hexdigest).
Abbreviation check_duplicate := (Api.check_duplicate sha256_hexdigest).


End ApiWithStub.

(** ** Reading the table *)

Local Instance id_desc_transitive : Transitive ApiRead.id_desc.
Proof. unfold ApiRead.id_desc. intros x y z ??. lia. Qed.

Local Instance id_desc_total : Total ApiRead.id_desc.
Proof. unfold ApiRead.id_desc. intros x y. lia. Qed.

Lemma ids_sorted_unique (l : list Api.api_row) (x y : Api.api_row) :
  StronglySorted (λ x y, Api.id x < Api.id y) l →
  x ∈ l → y ∈ l → Api.id x = Api.id y → x = y.
Proof.
  induction 1 as [|a l Hs IH Hall]; intros Hx Hy Hid.
  - by apply elem_of_nil in Hx.
  - rewrite Forall_forall in Hall.
    apply elem_of_cons in Hx as [->|Hx]; apply elem_of_cons in Hy as [->|Hy].
    + done.
    + specialize (Hall y Hy). lia.
    + specialize (Hall x Hx). lia.
    + by apply IH.
Qed.

Lemma reverse_id_desc (l : list Api.api_row) :
  StronglySorted (λ x y, Api.id x < Api.id y) l →
  StronglySorted ApiRead.id_desc (reverse l).
Proof.
  induction 1 as [|a l Hs IH Hall].
  - constructor.
  - rewrite reverse_cons. apply StronglySorted_app_2; [|done|repeat constructor].
    intros x y Hx ->%list_elem_of_singleton. rewrite elem_of_reverse in Hx.
    rewrite Forall_forall in Hall. specialize (Hall x Hx).
    unfold ApiRead.id_desc. lia.
Qed.

(** Sorting a table whose ids grow along it by descending id reverses it. *)
Lemma merge_sort_id_desc (l : list Api.api_row) :
  StronglySorted (λ x y, Api.id x < Api.id y) l →
  merge_sort ApiRead.id_desc l = reverse l.
Proof.
  intros Hs. apply (StronglySorted_unique_strong ApiRead.id_desc).
  - intros x y Hx Hy Hxy Hyx. apply (ids_sorted_unique l); [done| | |].
    + by rewrite merge_sort_Permutation in Hx.
    + by rewrite elem_of_reverse in Hy.
    + unfold ApiRead.id_desc in *. lia.
  - apply StronglySorted_merge_sort; apply _.
  - by apply reverse_id_desc.
  - by rewrite merge_sort_Permutation, reverse_Permutation.
Qed.

Lemma list_events_sorted (db : Api.database) (limit : Z) :
  StronglySorted (λ x y, Api.id x < Api.id y) (Api.events db) →
  (0 ≤ limit < 2 ^ 63)%Z →
  ApiRead.list_events db limit
  = Some (map ApiRead.to_listed (take (Z.to_nat limit) (reverse (Api.events db)))).
Proof.
  intros Hs [Hlo Hhi]. unfold ApiRead.list_events.
  replace (limit <? 0)%Z with false by (symmetry; apply Z.ltb_ge; lia).
  replace (2 ^ 63 <=? limit)%Z with false by (symmetry; apply Z.leb_gt; lia).
  cbn [orb]. by rewrite merge_sort_id_desc.
Qed.

(** On a table that came through [ingest], [list_events] returns the rows
    from the last stored one backwards, [limit] of them or all when there
    are fewer, without the hash, the metadata and the provenance; a
    negative [limit] is an error. *)
Theorem list_events_newest_first (digest : string → string) (db : Api.database)
  (limit : Z) :
  api_ok digest db →
  ((0 ≤ limit < 2 ^ 63)%Z →
   ∃ listed,
     ApiRead.list_events db limit = Some listed
     ∧ listed = map ApiRead.to_listed (take (Z.to_nat limit) (reverse (Api.events db)))
     ∧ length listed = Nat.min (Z.to_nat limit) (length (Api.events db))
     ∧ StronglySorted (λ x y, ApiRead.listed_id y < ApiRead.listed_id x) listed)
  ∧ ((limit < 0)%Z → ApiRead.list_events db limit = None).
Proof.
  intros (_ & Hs & _). split.
  - intros Hlim. eexists. split; [by apply list_events_sorted|].
    split; [done|]. split.
    + by rewrite length_map, length_take, length_reverse.
    + apply (StronglySorted_fmap ApiRead.to_listed
               (λ x y, Api.id y < Api.id x)); [done|].
      assert (Hrev : StronglySorted (λ x y, Api.id y < Api.id x)
                       (reverse (Api.events db))).
      { clear Hlim. induction Hs as [|a l Hs IH Hall]; [constructor|].
        rewrite reverse_cons. apply StronglySorted_app_2; [|done|repeat constructor].
        intros x y Hx ->%list_elem_of_singleton. rewrite elem_of_reverse in Hx.
        rewrite Forall_forall in Hall. by apply Hall. }
      rewrite <- (take_drop (Z.to_nat limit) (reverse (Api.events db))) in Hrev.
      by apply StronglySorted_app_1_l in Hrev.
  - intros Hneg. unfold ApiRead.list_events.
    by replace (limit <? 0)%Z with true by (symmetry; apply Z.ltb_lt; lia).
Qed.

Section ApiReadBack.
Variable sha256_hexdigest : string → string.
Variable pg_text : json → string + Api.refusal.

Abbreviation api_ingest := (Api.ingest sha256_hexdigest pg_text).

(** An event that [ingest] has accepted is the first one [list_events]
    returns afterwards, for any [limit] of 1 or more, with the id of the
    answer, the source as sent, the text stripped, the second reading of
    the clock, and the category as the [TEXT] column holds it: the string
    of the answer, [None] for [None], and for a number, a boolean or a
    list the text PostgreSQL made of it, not the value of the answer.  The
    rest is what [list_events] returned before for [limit - 1]. *)
Theorem ingested_event_listed_first (db db' : Api.database)
  (payload : Api.IngestPayload) (client now_prov now_record : string)
  (reply : Api.oracle_reply) (eid : nat) (cat : json) (limit : Z) :
  api_ok sha256_hexdigest db →
  api_ingest db payload client now_prov now_record reply
  = (Returned (Api.IngestAccepted eid cat), db') →
  (1 ≤ limit < 2 ^ 63)%Z →
  ∃ stored rest,
    Api.adapt_category pg_text cat = Returned stored
    ∧ (cat = JNull → stored = None)
    ∧ (∀ s, cat = JStr s → stored = Some s)
    ∧ (∀ s, stored = Some s → (∀ q, cat = JNum q → pg_text cat = inl s)
                              ∧ (∀ b, cat = JBool b → pg_text cat = inl s)
                              ∧ (∀ items, cat = JArr items → pg_text cat = inl s))
    ∧ ApiRead.list_events db (limit - 1) = Some rest
    ∧ ApiRead.list_events db' limit
      = Some (ApiRead.mk_listed eid (Api.payload_source payload)
                (strip (Api.payload_text payload)) now_record stored :: rest).
Proof.
  intros Hok Hing Hlim.
  assert (Hok' : api_ok sha256_hexdigest db').
  { replace db' with (run_ingests sha256_hexdigest pg_text db
                        [mk_ingest_call payload client now_prov now_record reply])
      by (unfold run_ingests; simpl; by rewrite Hing).
    by apply run_ingests_api_ok. }
  destruct Hok as (_ & Hs & _). destruct Hok' as (_ & Hs' & _).
  destruct (ingest_cases sha256_hexdigest pg_text db payload client now_prov now_record reply)
    as [[_ Heq]|[(_ & _ & Heq)|[(_ & _ & _ & Heq)
        |[(_ & _ & cat' & e & _ & _ & _ & Heq)
         |(_ & _ & cat' & c & _ & Hadapt & _ & _ & _ & _ & Heq)]]]];
    rewrite Heq in Hing; try done.
  injection Hing as <- <- <-. exists c. eexists.
  split; [done|]. split; [|split; [|split; [|split]]].
  - intros ->. simpl in Hadapt. congruence.
  - intros s ->. simpl in Hadapt. destruct (Api.has_nul s); congruence.
  - intros s ->. repeat split; intros ? ->; simpl in Hadapt;
      destruct (pg_text _) as [?|?]; congruence.
  - apply list_events_sorted; [done|lia].
  - rewrite list_events_sorted by (done || lia). cbn [Api.events].
    rewrite reverse_app, reverse_singleton.
    replace (Z.to_nat limit) with (S (Z.to_nat (limit - 1))) by lia.
    reflexivity.
Qed.

End ApiReadBack.

(** ** The summary of the table *)

Lemma summary_dict_snoc (rows : list (option string * nat)) (r : option string * nat) :
  ApiRead.summary_dict (rows ++ [r])
  = <[ApiRead.summary_key r.1 := r.2]> (ApiRead.summary_dict rows).
Proof. unfold ApiRead.summary_dict. by rewrite foldl_app. Qed.

Lemma summary_dict_lookup_Some (rows : list (option string * nat)) (k : string) (n : nat) :
  ApiRead.summary_dict rows !! k = Some n →
  ∃ c, (c, n) ∈ rows ∧ ApiRead.summary_key c = k.
Proof.
  induction rows as [|[c m] rows IH] using rev_ind; [done|].
  rewrite summary_dict_snoc. simpl.
  destruct (decide (ApiRead.summary_key c = k)) as [<-|Hne].
  - rewrite lookup_insert_eq. intros [= ->]. exists c. split; [|done].
    apply elem_of_app. right. by apply list_elem_of_singleton.
  - rewrite lookup_insert_ne by done. intros (c' & Hin & Hk)%IH.
    exists c'. split; [|done]. apply elem_of_app. by left.
Qed.

Lemma summary_dict_lookup_is_Some (rows : list (option string * nat))
  (c : option string) (n : nat) :
  (c, n) ∈ rows → is_Some (ApiRead.summary_dict rows !! ApiRead.summary_key c).
Proof.
  induction rows as [|[c' m] rows IH] using rev_ind; [by intros ?%elem_of_nil|].
  rewrite summary_dict_snoc. simpl. intros [Hin|Hin%list_elem_of_singleton]%elem_of_app.
  - destruct (decide (ApiRead.summary_key c' = ApiRead.summary_key c)) as [->|Hne].
    + rewrite lookup_insert_eq. by eexists.
    + rewrite lookup_insert_ne by done. by apply IH.
  - injection Hin as -> ->. rewrite lookup_insert_eq. by eexists.
Qed.

Lemma summary_key_plain (c : option string) (k : string) :
  k ≠ "UNCLASSIFIED" → (ApiRead.summary_key c = k ↔ c = Some k ∧ k ≠ "").
Proof.
  intros Hk. destruct c as [[|a s]|]; simpl.
  - split; [by intros <-|by intros [[= <-] ?]].
  - split; [by intros <-|by intros [[= <-] ?]].
  - split; [by intros <-|by intros [? ?]].
Qed.

Lemma summary_key_unclassified (c : option string) :
  ApiRead.summary_key c = "UNCLASSIFIED"
  ↔ c = None ∨ c = Some "" ∨ c = Some "UNCLASSIFIED".
Proof.
  destruct c as [[|a s]|]; simpl.
  - split; [auto|done].
  - split; [intros ->; auto|intros [?|[?|?]]; congruence].
  - split; [auto|done].
Qed.

(** Every table has a grouping. *)
Lemma grouped_group_rows (categories : list (option string)) :
  ApiRead.grouped categories (ApiRead.group_rows categories).
Proof.
  unfold ApiRead.grouped, ApiRead.group_rows. split.
  - rewrite map_map. simpl. rewrite map_id. apply NoDup_remove_dups.
  - intros c n. rewrite list_elem_of_fmap. split.
    + intros (c' & Heq & Hin). injection Heq as -> ->. split; [done|].
      rewrite elem_of_remove_dups in Hin. unfold ApiRead.count_category.
      assert (Hc : c' ∈ filter (λ x, x = c') categories)
        by (by apply list_elem_of_filter).
      destruct (filter _ categories); [by apply elem_of_nil in Hc|simpl; lia].
    + intros [-> Hpos]. exists c. split; [done|].
      rewrite elem_of_remove_dups. unfold ApiRead.count_category in Hpos.
      destruct (filter (λ x, x = c) categories) as [|x l] eqn:Hf; [simpl in Hpos; lia|].
      assert (Hx : x ∈ filter (λ x, x = c) categories) by (rewrite Hf; by left).
      apply list_elem_of_filter in Hx as [-> Hx]. done.
Qed.

(** [analytics_summary] gives every category other than UNCLASSIFIED and
    the empty string the number of its rows, and no entry when it has
    none.  The rows without a category (NULL), with the empty category and
    with the category UNCLASSIFIED share the key UNCLASSIFIED, which
    carries the count of one of these three groups only: the summary
    undercounts whenever two of them are present. *)
Theorem analytics_summary_counts (categories : list (option string))
  (rows : list (option string * nat)) :
  ApiRead.grouped categories rows →
  let summary := ApiRead.summary_dict rows in
  let count c := ApiRead.count_category c categories in
  (∀ k, k ≠ "UNCLASSIFIED" → k ≠ "" →
        summary !! k = if decide (count (Some k) = 0) then None else Some (count (Some k)))
  ∧ summary !! "" = None
  ∧ (summary !! "UNCLASSIFIED" = None
     ↔ count None = 0 ∧ count (Some "") = 0 ∧ count (Some "UNCLASSIFIED") = 0)
  ∧ (∀ n, summary !! "UNCLASSIFIED" = Some n →
          0 < n
          ∧ (n = count None ∨ n = count (Some "") ∨ n = count (Some "UNCLASSIFIED"))
          ∧ n ≤ count None + count (Some "") + count (Some "UNCLASSIFIED")).
Proof.
  intros [Hnd Hrows] summary count. split; [|split; [|split]].
  - intros k Hk Hne. destruct (decide (count (Some k) = 0)) as [Hz|Hnz].
    + destruct (summary !! k) as [n|] eqn:Hl; [|done].
      apply summary_dict_lookup_Some in Hl as (c & Hin & Hkey).
      apply summary_key_plain in Hkey as [-> _]; [|done].
      apply Hrows in Hin as [-> Hpos]. fold (count (Some k)) in Hpos. lia.
    + assert (Hin : (Some k, count (Some k)) ∈ rows).
      { apply Hrows. split; [done|]. fold (count (Some k)). lia. }
      destruct (summary_dict_lookup_is_Some rows _ _ Hin) as [n Hl].
      assert (Hkey : ApiRead.summary_key (Some k) = k)
        by (by apply summary_key_plain).
      rewrite Hkey in Hl. fold summary in Hl. rewrite Hl. f_equal.
      apply summary_dict_lookup_Some in Hl as (c & Hin' & Hkey').
      apply summary_key_plain in Hkey' as [-> _]; [|done].
      by apply Hrows in Hin' as [-> _].
  - destruct (summary !! "") as [n|] eqn:Hl; [|done].
    apply summary_dict_lookup_Some in Hl as (c & _ & Hkey).
    by apply summary_key_plain in Hkey as [_ ?].
  - split.
    + intros Hnone.
      assert (Hz : ∀ c, ApiRead.summary_key c = "UNCLASSIFIED" → count c = 0).
      { intros c Hkey. destruct (decide (count c = 0)) as [|Hnz]; [done|].
        assert (Hin : (c, count c) ∈ rows) by (apply Hrows; split; [done|lia]).
        destruct (summary_dict_lookup_is_Some rows _ _ Hin) as [n Hl].
        rewrite Hkey in Hl. fold summary in Hl. congruence. }
      repeat split; by apply Hz.
    + intros (Hn & He & Hu). destruct (summary !! "UNCLASSIFIED") as [n|] eqn:Hl; [|done].
      apply summary_dict_lookup_Some in Hl as (c & Hin & Hkey).
      apply Hrows in Hin as [-> Hpos]. fold (count c) in Hpos.
      apply summary_key_unclassified in Hkey as [->|[->| ->]]; lia.
  - intros n Hl. apply summary_dict_lookup_Some in Hl as (c & Hin & Hkey).
    apply Hrows in Hin as [-> Hpos]. fold (count c) in Hpos |- *.
    apply summary_key_unclassified in Hkey as [->|[->| ->]];
      (split; [done|]); (split; [auto|lia]).
Qed.

(** ** The statements at concrete inputs *)

(** The scenario of the specification, with the table empty at the start:
    the first text is processed as CIVIL_ACTIVITY, the same text is then
    rejected, a text about an outage is processed as INFRASTRUCTURE, and the
    summary of the two processed events counts one under each category. *)
Example pipeline_scenario :
  let step1 := process_event plain_digest [] "t1" "OSINT"
                 "Peaceful protest observed in Almaty" [] in
  let step2 := process_event plain_digest step1.2 "t2" "OSINT"
                 "Peaceful protest observed in Almaty" [] in
  let step3 := process_event plain_digest step2.2 "t3" "SENSOR"
                 "Power outage detected in north sector" [] in
  (∃ r, step1.1 = Returned r ∧ status r = "processed"
        ∧ result_category r = Some "CIVIL_ACTIVITY")
  ∧ (∃ r, step2.1 = Returned r ∧ status r = "rejected")
  ∧ (∃ r1 r3 e1 e3, step1.1 = Returned r1 ∧ step3.1 = Returned r3
        ∧ result_event r1 = Some e1 ∧ result_event r3 = Some e3
        ∧ result_category r3 = Some "INFRASTRUCTURE"
        ∧ analyze [e1; e3] !! "CIVIL_ACTIVITY" = Some 1
        ∧ analyze [e1; e3] !! "INFRASTRUCTURE" = Some 1
        ∧ total_count (analyze [e1; e3]) = 2)
  ∧ length step3.2 = 2.
Proof.
  cbv zeta. split; [|split; [|split]].
  - eexists. split; [by vm_compute|]. by vm_compute.
  - eexists. split; [by vm_compute|]. by vm_compute.
  - do 4 eexists. split; [by vm_compute|]. split; [by vm_compute|].
    split; [reflexivity|]. split; [reflexivity|]. by vm_compute.
  - by vm_compute.
Qed.


Lemma classify_first_keyword_witness :
  category (classify (mk_event "API" "protest under threat" "t0" [] None None))
  = Some "CIVIL_ACTIVITY".
Proof.
  apply (proj2 (proj2 (proj2 (classify_first_keyword
           (mk_event "API" "protest under threat" "t0" [] None None))))).
  - by exists "", " under threat".
  - by exists "protest under ", "".
Defined.


Lemma store_grows_and_stays_unique_witness :
  unique_fingerprints
    (run_ops plain_digest []
       [ProcessEvent "t1" "OSINT" "Peaceful protest observed in Almaty" [];
        ProcessEvent "t2" "NEWS" "peaceful protest observed in almaty" [];
        AnalyzeAll;
        InitDb;
        ValidateAndStore (mk_event "API" "threat detected near border checkpoint"
                            "t3" [] None None);
        ProcessEvent "t4" "SENSOR" "Power outage detected in north sector" []]).
Proof.
  apply (proj2 (store_grows_and_stays_unique plain_digest [] _)).
  apply NoDup_nil_2.
Defined.


Lemma analyze_counts_witness :
  ∃ n', analyze ([mk_event "OSINT" "a protest" "t0" [] (Some "CIVIL_ACTIVITY") None]
                 ++ [mk_event "NEWS" "unlabelled" "t1" [] None None;
                     mk_event "API" "another protest" "t2" [] (Some "CIVIL_ACTIVITY") None])
          !! "CIVIL_ACTIVITY" = Some n'
        ∧ 1 ≤ n'.
Proof.
  apply (proj2 (proj2 (proj2 (proj2 (analyze_counts
           [mk_event "OSINT" "a protest" "t0" [] (Some "CIVIL_ACTIVITY") None]))))).
  by vm_compute.
Defined.

(** The script on an empty table: four events processed, then the answer
    of [analyze_all]; four rows stored. *)
Example script_on_empty_table :
  map (λ o, match o with
            | Returned r => (status r, result_category r)
            | Raised _ => ("raised", None)
            end) (main plain_digest (λ _, "t") []).1
  = [("processed", Some "CIVIL_ACTIVITY"); ("processed", Some "INFRASTRUCTURE");
     ("processed", Some "SECURITY_ALERT"); ("processed", Some "CIVIL_ACTIVITY");
     ("analytics_ready", None)]
  ∧ map row_text (main plain_digest (λ _, "t") []).2
    = ["peaceful protest observed in almaty"; "power outage detected in north sector";
       "threat detected near border checkpoint"; "protest gathering planned tomorrow"].
Proof. split; by vm_compute. Qed.

Lemma rejection_is_permanent_witness :
  validate_and_store plain_digest
    (run_ops plain_digest
       [mk_row 1 "OSINT" "peaceful protest" "peaceful protest" "t0" []]
       [ProcessEvent "t1" "NEWS" "Power outage detected" []])
    (mk_event "API" "peaceful protest" "t2" [] None None)
  = (Returned false,
     run_ops plain_digest
       [mk_row 1 "OSINT" "peaceful protest" "peaceful protest" "t0" []]
       [ProcessEvent "t1" "NEWS" "Power outage detected" []]).
Proof.
  apply (rejection_is_permanent plain_digest
           [mk_row 1 "OSINT" "peaceful protest" "peaceful protest" "t0" []]
           [ProcessEvent "t1" "NEWS" "Power outage detected" []]
           (mk_event "API" "peaceful protest" "t2" [] None None)).
  by vm_compute.
Defined.

Lemma variant_resubmission_rejected_witness :
  process_event plain_digest
    (run_ops plain_digest
       (process_event plain_digest [] "t0" "OSINT"
          "Peaceful protest observed in Almaty" []).2
       [ProcessEvent "t1" "SENSOR" "Power outage detected in north sector" []])
    "t2" "NEWS" "  PEACEFUL PROTEST observed in ALMATY " [("lang", JStr "en")]
  = (Returned {| status := "rejected"; reason := Some "duplicate_or_invalid";
                 result_event := None |},
     run_ops plain_digest
       (process_event plain_digest [] "t0" "OSINT"
          "Peaceful protest observed in Almaty" []).2
       [ProcessEvent "t1" "SENSOR" "Power outage detected in north sector" []]).
Proof.
  apply (variant_resubmission_rejected plain_digest []
           [ProcessEvent "t1" "SENSOR" "Power outage detected in north sector" []]
           "Peaceful protest observed in Almaty"
           "  PEACEFUL PROTEST observed in ALMATY "
           "t0" "OSINT" "t2" "NEWS" [] [("lang", JStr "en")]).
  by vm_compute.
Defined.

Lemma keyword_in_any_case_witness :
  ∃ r db',
    process_event plain_digest [] "t0" "API" "THREAT detected near border" []
    = (Returned r, db')
    ∧ result_category r = Some "SECURITY_ALERT".
Proof.
  eexists _, _. split; [by vm_compute|].
  apply (keyword_in_any_case plain_digest [] "t0" "API" "THREAT detected near border" []
           [("protest", "CIVIL_ACTIVITY")]
           [("outage", "INFRASTRUCTURE"); ("attack", "CRISIS_EVENT")]
           "threat" "SECURITY_ALERT" "THREAT" _
           [mk_row 1 "API" "threat detected near border"
              "threat detected near border" "t0" []]).
  - reflexivity.
  - by exists "", " detected near border".
  - reflexivity.
  - intros kw' cat' Hin Hocc. apply list_elem_of_singleton in Hin.
    injection Hin as -> ->. apply str_contains_spec in Hocc. by vm_compute in Hocc.
  - by vm_compute.
  - reflexivity.
Defined.

Lemma table_stays_consistent_witness :
  table_consistent plain_digest
    (run_ops plain_digest
       [mk_row 1 "OSINT" "peaceful protest" "peaceful protest" "t0" []]
       [ProcessEvent "t1" "NEWS" "Power outage detected" []; AnalyzeAll])
  ∧ (unique_fingerprints [mk_row 1 "OSINT" "peaceful protest" "peaceful protest" "t0" []] →
     NoDup (map row_text
              (run_ops plain_digest
                 [mk_row 1 "OSINT" "peaceful protest" "peaceful protest" "t0" []]
                 [ProcessEvent "t1" "NEWS" "Power outage detected" []; AnalyzeAll]))).
Proof.
  apply (table_stays_consistent plain_digest
           [mk_row 1 "OSINT" "peaceful protest" "peaceful protest" "t0" []]
           [ProcessEvent "t1" "NEWS" "Power outage detected" []; AnalyzeAll]).
  apply Forall_singleton. split; [reflexivity|simpl; lia].
Defined.

Lemma later_texts_not_near_earlier_witness :
  later_not_near_earlier
    (run_ops plain_digest
       [mk_row 1 "OSINT" "peaceful protest" "peaceful protest" "t0" [];
        mk_row 2 "NEWS" "power outage detected" "power outage detected" "t1" []]
       [ProcessEvent "t2" "API" "Peaceful protests" []])
  ∧ map row_text
      (run_ops plain_digest [] [ProcessEvent "t0" "A" "aaabcacaacbbabcbbc" [];
                                ProcessEvent "t1" "B" "aaabcacaabbbcbc" []])
    = ["aaabcacaacbbabcbbc"; "aaabcacaabbbcbc"].
Proof.
  destruct (later_texts_not_near_earlier plain_digest
              [mk_row 1 "OSINT" "peaceful protest" "peaceful protest" "t0" [];
               mk_row 2 "NEWS" "power outage detected" "power outage detected" "t1" []]
              [ProcessEvent "t2" "API" "Peaceful protests" []]) as [Hkept Horder].
  - intros i j x y Hij Hi Hj.
    destruct i as [|[|i]], j as [|[|j]]; try lia; try done.
    injection Hi as <-. injection Hj as <-. by vm_compute.
  - split; [exact Hkept|]. apply Horder. done.
Defined.

Lemma stored_text_is_duplicate_witness :
  is_duplicate plain_digest
    [mk_row 1 "OSINT" "peaceful protest" "a fingerprint of another text" "t0" []]
    "peaceful protest" = true.
Proof.
  apply (stored_text_is_duplicate plain_digest
           [mk_row 1 "OSINT" "peaceful protest" "a fingerprint of another text" "t0" []]
           "peaceful protest").
  simpl. by left.
Defined.

Lemma length_gap_not_near_duplicate_witness :
  near_duplicate "protest" "protest in the central square of the city" = false.
Proof.
  apply (length_gap_not_near_duplicate
           "protest" "protest in the central square of the city").
  - simpl. lia.
  - simpl. lia.
Defined.

Lemma extended_text_near_duplicate_witness :
  near_duplicate "peaceful protest observed in almaty!!"
    "peaceful protest observed in almaty" = true
  ∧ near_duplicate "peaceful protest observed in almaty"
      "peaceful protest observed in almaty, and a long tail" = false.
Proof.
  split.
  - apply (proj1 (extended_text_near_duplicate
                    "peaceful protest observed in almaty" "!!" ltac:(done))).
    simpl. lia.
  - apply not_true_iff_false. intros Hnear.
    apply (proj1 (proj2 (extended_text_near_duplicate
                           "peaceful protest observed in almaty" ", and a long tail"
                           ltac:(done)))) in Hnear.
    simpl in Hnear. lia.
Defined.

Lemma ingest_keeps_table_sound_witness :
  api_ok plain_digest
    (run_ingests plain_digest sample_pg_text empty_database
       [mk_ingest_call (Api.mk_payload "OSINT" " Peaceful protest observed " None)
          "10.0.0.1" "t0" "t1" Api.OracleUnreachable;
        mk_ingest_call (Api.mk_payload "NEWS" "peaceful PROTEST observed" (Some []))
          "10.0.0.2" "t2" "t3" (Api.OracleJson (JObj []))])
  ∧ (Api.events empty_database `prefix_of`
       Api.events
         (run_ingests plain_digest sample_pg_text empty_database
            [mk_ingest_call (Api.mk_payload "OSINT" " Peaceful protest observed " None)
               "10.0.0.1" "t0" "t1" Api.OracleUnreachable;
             mk_ingest_call (Api.mk_payload "NEWS" "peaceful PROTEST observed" (Some []))
               "10.0.0.2" "t2" "t3" (Api.OracleJson (JObj []))]))
  ∧ Api.events_id_seq empty_database
    ≤ Api.events_id_seq
        (run_ingests plain_digest sample_pg_text empty_database
           [mk_ingest_call (Api.mk_payload "OSINT" " Peaceful protest observed " None)
              "10.0.0.1" "t0" "t1" Api.OracleUnreachable;
            mk_ingest_call (Api.mk_payload "NEWS" "peaceful PROTEST observed" (Some []))
              "10.0.0.2" "t2" "t3" (Api.OracleJson (JObj []))]).
Proof.
  apply (ingest_keeps_table_sound plain_digest sample_pg_text empty_database).
  split; [apply NoDup_nil_2|]. split; constructor.
Defined.

Lemma ingest_ids_consecutive_witness :
  ids_dense
    (run_ingests plain_digest sample_pg_text empty_database
       [mk_ingest_call (Api.mk_payload "OSINT" "Peaceful protest observed" None)
          "10.0.0.1" "t0" "t1" Api.OracleUnreachable;
        mk_ingest_call (Api.mk_payload "OSINT" "Peaceful protest observed" None)
          "10.0.0.1" "t2" "t3" Api.OracleUnreachable;
        mk_ingest_call (Api.mk_payload "NEWS" "Power outage detected" None)
          "10.0.0.2" "t4" "t5" (Api.OracleJson (JArr []))]).
Proof.
  apply (ingest_ids_consecutive plain_digest sample_pg_text empty_database).
  reflexivity.
Defined.



Lemma list_events_newest_first_witness :
  ∃ listed,
    ApiRead.list_events
      {| Api.events :=
           [Api.mk_api_row 1 "OSINT" "Peaceful protest" "t1" "peaceful protest" None
              (Some "CIVIL_ACTIVITY") JNull;
            Api.mk_api_row 3 "NEWS" "Power outage" "t3" "power outage" None
              None JNull];
         Api.events_id_seq := 4 |} 1
    = Some listed
    ∧ listed = [ApiRead.mk_listed 3 "NEWS" "Power outage" "t3" None].
Proof.
  assert (Hok : api_ok plain_digest
                  {| Api.events :=
                       [Api.mk_api_row 1 "OSINT" "Peaceful protest" "t1"
                          "peaceful protest" None (Some "CIVIL_ACTIVITY") JNull;
                        Api.mk_api_row 3 "NEWS" "Power outage" "t3" "power outage" None
                          None JNull];
                     Api.events_id_seq := 4 |}).
  { split; [|split].
    - apply NoDup_cons_2; [|apply NoDup_singleton].
      intros Hin. apply list_elem_of_singleton in Hin. discriminate Hin.
    - repeat constructor.
    - repeat (constructor; simpl; try lia). }
  destruct (proj1 (list_events_newest_first plain_digest _ 1 Hok))
    as (listed & Hlist & Heq & _).
  - split; [lia|reflexivity].
  - exists listed. split; [exact Hlist|exact Heq].
Defined.

Lemma ingested_event_listed_first_witness :
  ∃ rest,
    ApiRead.list_events empty_database (ApiRead.default_limit - 1) = Some rest
    ∧ ApiRead.list_events
        (Api.ingest plain_digest sample_pg_text empty_database
           (Api.mk_payload "OSINT" " Peaceful protest observed in Almaty" None)
           "10.0.0.1" "t0" "t1" (Api.OracleJson (JObj [("category", JNum 5)]))).2
        ApiRead.default_limit
      = Some (ApiRead.mk_listed 1 "OSINT" "Peaceful protest observed in Almaty" "t1"
                (Some "5") :: rest).
Proof.
  destruct (ingested_event_listed_first plain_digest sample_pg_text empty_database
              (Api.ingest plain_digest sample_pg_text empty_database
                 (Api.mk_payload "OSINT" " Peaceful protest observed in Almaty" None)
                 "10.0.0.1" "t0" "t1" (Api.OracleJson (JObj [("category", JNum 5)]))).2
              (Api.mk_payload "OSINT" " Peaceful protest observed in Almaty" None)
              "10.0.0.1" "t0" "t1" (Api.OracleJson (JObj [("category", JNum 5)]))
              1 (JNum 5) ApiRead.default_limit)
    as (stored & rest & Hadapt & _ & _ & _ & Hbefore & Hafter).
  - split; [apply NoDup_nil_2|]. split; constructor.
  - reflexivity.
  - split; by vm_compute.
  - injection Hadapt as <-. exists rest. split; [exact Hbefore|exact Hafter].
Defined.

Lemma analytics_summary_counts_witness :
  ApiRead.summary_dict
    (ApiRead.group_rows
       [Some "CIVIL_ACTIVITY"; None; Some "UNCLASSIFIED"; Some "CIVIL_ACTIVITY"; None])
    !! "CIVIL_ACTIVITY" = Some 2
  ∧ ApiRead.summary_dict
      (ApiRead.group_rows
         [Some "CIVIL_ACTIVITY"; None; Some "UNCLASSIFIED"; Some "CIVIL_ACTIVITY"; None])
      !! "UNCLASSIFIED" = Some 2.
Proof.
  destruct (analytics_summary_counts
              [Some "CIVIL_ACTIVITY"; None; Some "UNCLASSIFIED"; Some "CIVIL_ACTIVITY"; None]
              (ApiRead.group_rows
                 [Some "CIVIL_ACTIVITY"; None; Some "UNCLASSIFIED";
                  Some "CIVIL_ACTIVITY"; None])
              (grouped_group_rows _)) as (Hplain & _ & _ & _).
  split; [|by vm_compute].
  by rewrite (Hplain "CIVIL_ACTIVITY" ltac:(done) ltac:(done)).
Defined.
